(** * Mail-Scraped-3000: the extraction, validation and collection pipeline
    of [server.js]

    A shallow embedding of [server.js]: the e-mail pattern [emailRegex] and
    [String.prototype.match], [validateEmail], the ["data"], ["end"] and
    ["error"] handlers of [processCSV] run by an explicit event loop, and the
    [/upload] and [/download] routes.

    JavaScript strings are sequences of UTF-16 code units; they are modelled
    as lists of numbers.  What lies outside the repository is a parameter of
    the development: the answers of the DNS resolver and the formatter of
    the fast-csv package. *)

From Stdlib Require Import NArith List Bool Ascii String Lia.
From Stdlib Require Import DecimalString DecimalN.
From stdpp Require Import gmap list.

Local Open Scope N_scope.
Local Open Scope nat_scope.

(** ** Strings *)

Definition code_unit := N.
Bind Scope N_scope with code_unit.
Abbreviation jsstring := (list code_unit).

(** A string literal of the source, as code units (ASCII literals only). *)
Definition js (s : string) : jsstring :=
  List.map N_of_ascii (list_ascii_of_string s).

Definition in_range (lo hi c : code_unit) : bool :=
  ((lo <=? c) && (c <=? hi))%N.

Definition is_letter (c : code_unit) : bool :=
  in_range 97 122 c || in_range 65 90 c.

Definition is_digit (c : code_unit) : bool := in_range 48 57 c.

(** [[a-zA-Z0-9._%+-]] *)
Definition local_char (c : code_unit) : bool :=
  is_letter c || is_digit c
  || (c =? 46)%N || (c =? 95)%N || (c =? 37)%N || (c =? 43)%N || (c =? 45)%N.

(** [[a-zA-Z0-9.-]] *)
Definition domain_char (c : code_unit) : bool :=
  is_letter c || is_digit c || (c =? 46)%N || (c =? 45)%N.

Definition at_sign : code_unit := 64%N.
Definition full_stop : code_unit := 46%N.

Definition is_at (c : code_unit) : bool := (c =? at_sign)%N.
Definition is_full_stop (c : code_unit) : bool := (c =? full_stop)%N.

(** *** [String.prototype.trim]

    The characters removed are ECMAScript's WhiteSpace and LineTerminator:
    TAB, LF, VT, FF, CR, SP, NBSP, the Unicode space separators,
    LS, PS and the byte order mark. *)

Definition is_white (c : code_unit) : bool :=
  in_range 9 13 c || (c =? 32)%N || (c =? 160)%N || (c =? 5760)%N
  || in_range 8192 8202 c || (c =? 8232)%N || (c =? 8233)%N
  || (c =? 8239)%N || (c =? 8287)%N || (c =? 12288)%N || (c =? 65279)%N.

Fixpoint trimStart (s : jsstring) : jsstring :=
  match s with
  | c :: s' => if is_white c then trimStart s' else s
  | [] => []
  end.

Definition trimEnd (s : jsstring) : jsstring := rev (trimStart (rev s)).

Definition trim (s : jsstring) : jsstring := trimEnd (trimStart s).

(** ** Regular expressions

    The patterns needed are sequences of character classes, each with a
    greedy quantifier [{lo,}] or [{lo,hi}].  The matcher is the backtracking
    matcher of ECMAScript: a quantified class first takes as many characters
    as it can and gives them back one at a time while the rest of the pattern
    fails. *)

Record Term := {
  class : code_unit -> bool;
  lo : nat;
  hi : option nat   (* [None]: unbounded *)
}.

Definition one (c : code_unit -> bool) : Term :=
  {| class := c; lo := 1; hi := Some 1 |}.
Definition at_least (n : nat) (c : code_unit -> bool) : Term :=
  {| class := c; lo := n; hi := None |}.

Definition may_take (h : option nat) : bool :=
  match h with Some 0 => false | _ => true end.

Definition taken (h : option nat) : option nat :=
  match h with Some n => Some (pred n) | None => None end.

(** [repeat_class c l h s k]: the number of code units of [s] matched by
    [c{l,h}] followed by the continuation [k], longest repetition first. *)
Fixpoint repeat_class (c : code_unit -> bool) (l : nat) (h : option nat)
    (s : jsstring) (k : jsstring -> option nat) : option nat :=
  let stop := match l with 0 => k s | S _ => None end in
  match s with
  | x :: s' =>
      if c x && may_take h then
        match repeat_class c (pred l) (taken h) s' k with
        | Some n => Some (S n)
        | None => stop
        end
      else stop
  | [] => stop
  end.

Fixpoint match_here (p : list Term) (s : jsstring) : option nat :=
  match p with
  | [] => Some 0
  | t :: p' => repeat_class (class t) (lo t) (hi t) s (match_here p')
  end.

(** [/[a-zA-Z0-9._%+-]+@[a-zA-Z0-9.-]+\.[a-zA-Z]{2,}/] *)
Definition emailPattern : list Term :=
  [ at_least 1 local_char; one is_at; at_least 1 domain_char;
    one is_full_stop; at_least 2 is_letter ].

(** The loop of [RegExp.prototype[Symbol.match]] for a global pattern, over
    the text from [lastIndex] on.  [skip] counts the code units of the
    current match still to be passed: after a match of length [n] found at
    this position, [lastIndex] is [n] further (one further when [n] is 0). *)
Fixpoint match_from (p : list Term) (s : jsstring) (skip : nat)
    {struct s} : list jsstring :=
  match skip with
  | S k => match s with [] => [] | _ :: s' => match_from p s' k end
  | 0 =>
      match match_here p s with
      | Some n =>
          firstn n s :: match s with
                        | [] => []
                        | _ :: s' => match_from p s' (pred n)
                        end
      | None => match s with [] => [] | _ :: s' => match_from p s' 0 end
      end
  end.

(** A RegExp object with the [g] flag: its pattern and its mutable
    [lastIndex]. *)
Record RegExp := { source : list Term; lastIndex : nat }.

Definition emailRegex : RegExp := {| source := emailPattern; lastIndex := 0 |}.

(** [str.match(rx)] for a global [rx]: [lastIndex] is set to 0 before the
    first search, and is 0 again after the last, failing one.  The result is
    [null] (here [None]) when nothing matched. *)
Definition String_match (str : jsstring) (rx : RegExp)
    : option (list jsstring) * RegExp :=
  let found := match_from (source rx) str 0 in
  (match found with [] => None | _ => Some found end,
   {| source := source rx; lastIndex := 0 |}).

(** [url.match(emailRegex) || []] *)
Definition extractEmails (url : jsstring) : list jsstring :=
  match fst (String_match url emailRegex) with
  | Some found => found
  | None => []
  end.

(** [str.split(sep)] for a separator of one code unit. *)
Fixpoint split (sep : code_unit) (s : jsstring) : list jsstring :=
  match s with
  | [] => [[]]
  | c :: s' =>
      if (c =? sep)%N then [] :: split sep s'
      else match split sep s' with
           | seg :: segs => (c :: seg) :: segs
           | [] => [[c]]
           end
  end.

(** ** JavaScript values and objects *)

(** The values [validateEmail] resolves its promise with. *)
Inductive JsValue := JsBool (b : bool) | JsUndefined.

Definition ToBoolean (v : JsValue) : bool :=
  match v with JsBool b => b | JsUndefined => false end.

(** [set.has(v)], where [v] may be [undefined] (here [None]). *)
Definition Set_has (s : gset jsstring) (v : option jsstring) : bool :=
  match v with
  | Some d => bool_decide (d ∈ s)
  | None => false
  end.

(** [set.add(v)] *)
Definition Set_add (s : gset jsstring) (v : jsstring) : gset jsstring :=
  {[ v ]} ∪ s.

(** The property names found on a Set instance: it has no own properties
    (its elements live in the internal slot [[SetData]]), so these are the
    names on [Set.prototype] and [Object.prototype]. *)
Definition Set_property_names : list jsstring :=
  List.map js
    [ "constructor"; "has"; "add"; "delete"; "clear"; "entries"; "forEach";
      "keys"; "values"; "size"; "union"; "intersection"; "difference";
      "symmetricDifference"; "isSubsetOf"; "isSupersetOf"; "isDisjointFrom";
      "hasOwnProperty"; "isPrototypeOf"; "propertyIsEnumerable";
      "toLocaleString"; "toString"; "valueOf"; "__proto__";
      "__defineGetter__"; "__defineSetter__"; "__lookupGetter__";
      "__lookupSetter__" ]%string.

(** [key in set]: the [in] operator asks for a property of the object, not
    for an element of the set. *)
Definition js_in (key : jsstring) (s : gset jsstring) : bool :=
  bool_decide (key ∈ Set_property_names).

(** ** Validation *)

Definition BLACKLISTED_DOMAINS : gset jsstring :=
  list_to_set [js "sentry.io"; js "example.com"; js "test.com"].

Inductive DnsError := ENOTFOUND | ENODATA | ESERVFAIL | ETIMEOUT | ECONNREFUSED.

Record MxRecord := { exchange : jsstring; priority : N }.

(** The arguments [(err, addresses)] passed to the callback of
    [dns.resolveMx]. *)
Record MxAnswer := {
  mx_err : option DnsError;
  mx_addresses : option (list MxRecord)
}.

(** [!err && addresses && addresses.length > 0] *)
Definition mx_verdict (a : MxAnswer) : JsValue :=
  match mx_err a with
  | Some _ => JsBool false
  | None =>
      match mx_addresses a with
      | None => JsUndefined
      | Some l => JsBool (0 <? length l)
      end
  end.

(** The promise returned by [validateEmail], once its executor has run. *)
Inductive Promise :=
  | Fulfilled (v : JsValue)          (* [resolve] was called by the executor *)
  | AwaitingMx (domain : jsstring)   (* [resolve] is called by the callback *)
  | Rejected.                        (* the executor threw *)

(** [validateEmail(email)]: the MX lookups issued by the executor, and the
    promise.  [dns.resolveMx] throws a TypeError when its name is not a
    string; an exception of the executor rejects the promise. *)
Definition validateEmail (email : jsstring) : list jsstring * Promise :=
  let domain := split at_sign email !! 1 in
  if Set_has BLACKLISTED_DOMAINS domain then ([], Fulfilled (JsBool false))
  else match domain with
       | Some d => ([d], AwaitingMx d)
       | None => ([], Rejected)
       end.

(** ** Files, responses and the events of a run *)

Definition UPLOAD_FOLDER : jsstring := js "uploads".

(** [path.join(a, b)] for two plain relative names (POSIX). *)
Definition path_join (a b : jsstring) : jsstring := a ++ js "/" ++ b.

Definition outputFilePath : jsstring := path_join UPLOAD_FOLDER (js "emails.csv").

Definition header : list jsstring := [js "Name"; js "Email"].

Definition entry_row (e : jsstring * jsstring) : list jsstring := [e.1; e.2].

Inductive Fault := UnhandledRejection | UncaughtStreamError.

(** How [processCSV]'s promise was settled: [resolve({ outputFilePath,
    results })] hands over the [results] array itself, so only the path is
    recorded. *)
Inductive Settlement := Resolved (path : jsstring) | Failed.

(** What becomes of the write stream piped to in the ["end"] handler. *)
Inductive WriteResult :=
  | Written
  | OpenFailed                    (* nothing reaches the file *)
  | WriteFailedAfter (n : nat).   (* the file keeps the first [n] code units *)

(** A ["data"] handler suspended at [await validateEmail(email)]. *)
Record Task := {
  task_name : jsstring;
  task_email : jsstring;
  task_promise : Promise;
  task_rest : list jsstring     (* the candidates the loop has not reached *)
}.

(** The state of one call of [processCSV]. *)
Record Run := {
  emails : gset jsstring;                  (* [const emails = new Set()] *)
  results : list (jsstring * jsstring);    (* [const results = []] *)
  suspended : list Task;
  lookups : list jsstring;                 (* names given to [dns.resolveMx] *)
  files : gmap jsstring jsstring;          (* the file system *)
  settled : option Settlement;             (* the promise of [processCSV] *)
  faults : list Fault
}.

(** What the event loop delivers: a row of the parser, the settlement of the
    promise awaited by the [k]-th suspended handler, the end of the rows, or
    the parser's error. *)
Inductive Event :=
  | Data (row : list jsstring)
  | Settle (k : nat)
  | End (w : WriteResult)
  | Error.

Inductive Body :=
  | ErrorBody (error : jsstring)
  | UploadBody (file : jsstring) (emails : list (jsstring * jsstring)).

Inductive Response :=
  | Json (status : nat) (body : Body)
  | Send (status : nat) (text : jsstring)
  | Download (file : option jsstring).

(** [const name = row[0].trim(); const url = row[1].trim();], guarded by
    [row.length >= 2]. *)
Definition input_row (row : list jsstring) : option (jsstring * jsstring) :=
  if 2 <=? length row then
    match row with
    | f0 :: f1 :: _ => Some (trim f0, trim f1)
    | _ => None
    end
  else None.

Definition start (fs : gmap jsstring jsstring) : Run :=
  {| emails := ∅; results := []; suspended := []; lookups := [];
     files := fs; settled := None; faults := [] |}.

Section Server.

(** The answer of the resolver for a name, and fast-csv's formatter
    ([csv.write(rows, { headers: true })]). *)
Variable resolveMx : jsstring -> MxAnswer.
Variable csv_write : list (list jsstring) -> jsstring.

(** The value of [await p]; [None] when it throws. *)
Definition await (p : Promise) : option JsValue :=
  match p with
  | Fulfilled v => Some v
  | AwaitingMx d => Some (mx_verdict (resolveMx d))
  | Rejected => None
  end.

(** The [for] loop of the ["data"] handler, from the candidate it is at up to
    its next [await], where the handler is suspended. *)
Fixpoint advance (name : jsstring) (candidates : list jsstring) (r : Run) : Run :=
  match candidates with
  | [] => r
  | email :: rest =>
      if js_in email (emails r) then advance name rest r
      else
        let '(asked, p) := validateEmail email in
        {| emails := emails r; results := results r;
           suspended := suspended r ++
             [{| task_name := name; task_email := email;
                 task_promise := p; task_rest := rest |}];
           lookups := lookups r ++ asked;
           files := files r; settled := settled r; faults := faults r |}
  end.

(** The handler resumes after its [await]: the rest of the condition, the
    body of the [if], and the loop up to the next [await]. *)
Definition resume (t : Task) (r : Run) : Run :=
  match await (task_promise t) with
  | None =>
      {| emails := emails r; results := results r; suspended := suspended r;
         lookups := lookups r; files := files r; settled := settled r;
         faults := faults r ++ [UnhandledRejection] |}
  | Some v =>
      if ToBoolean v then
        advance (task_name t) (task_rest t)
          {| emails := Set_add (emails r) (task_email t);
             results := results r ++ [(task_name t, task_email t)];
             suspended := suspended r; lookups := lookups r;
             files := files r; settled := settled r; faults := faults r |}
      else advance (task_name t) (task_rest t) r
  end.

(** The write stream on [outputFilePath] receiving [text]. *)
Definition write_artifact (w : WriteResult) (text : jsstring)
    (fs : gmap jsstring jsstring) : gmap jsstring jsstring :=
  match w with
  | Written => <[outputFilePath := text]> fs
  | OpenFailed => fs
  | WriteFailedAfter n => <[outputFilePath := firstn n text]> fs
  end.

Definition write_faults (w : WriteResult) : list Fault :=
  match w with Written => [] | _ => [UncaughtStreamError] end.

(** A promise is settled once: later calls of [resolve] and [reject] have no
    effect. *)
Definition settle_with (s : Settlement) (now : option Settlement) : option Settlement :=
  match now with Some s' => Some s' | None => Some s end.

Definition step (r : Run) (ev : Event) : Run :=
  match ev with
  | Data row =>
      match input_row row with
      | Some (name, url) => advance name (extractEmails url) r
      | None => r
      end
  | Settle k =>
      match suspended r !! k with
      | Some t =>
          resume t
            {| emails := emails r; results := results r;
               suspended := delete k (suspended r);
               lookups := lookups r; files := files r;
               settled := settled r; faults := faults r |}
      | None => r
      end
  | End w =>
      {| emails := emails r; results := results r; suspended := suspended r;
         lookups := lookups r;
         files := write_artifact w
                    (csv_write (header :: List.map entry_row (results r)))
                    (files r);
         settled := settle_with (Resolved outputFilePath) (settled r);
         faults := faults r ++ write_faults w |}
  | Error =>
      {| emails := emails r; results := results r; suspended := suspended r;
         lookups := lookups r; files := files r;
         settled := settle_with Failed (settled r);
         faults := faults r |}
  end.

(** [processCSV(filePath)] under a schedule of events, on the file system
    [fs]. *)
Definition processCSV (fs : gmap jsstring jsstring) (schedule : list Event) : Run :=
  fold_left step schedule (start fs).

(** The schedule in which every lookup is answered before the parser
    delivers its next event. *)
Definition in_turn (rows : list (list jsstring)) (w : WriteResult) : list Event :=
  flat_map (fun row =>
              Data row ::
              match input_row row with
              | Some (_, url) => List.map (fun _ => Settle 0) (extractEmails url)
              | None => []
              end) rows
  ++ [End w].

(** The [try]/[catch] of the [/upload] route: the answer made when the
    promise of [processCSV] is settled.  [results] is the array the run
    still holds, read when the answer is serialized. *)
Definition upload_reply (r : Run) : option Response :=
  match settled r with
  | Some (Resolved p) => Some (Json 200 (UploadBody p (results r)))
  | Some Failed => Some (Json 500 (ErrorBody (js "Error processing file")))
  | None => None
  end.

(** The [/upload] route; [req_file] is [None] when the request carried no
    file, and no run is started then. *)
Definition upload (req_file : option jsstring) (r : Run) : option Response :=
  match req_file with
  | None => Some (Json 400 (ErrorBody (js "No file uploaded")))
  | Some _ => upload_reply r
  end.

(** The [/download] route.  [req.query.file] is [None] when the query has no
    such parameter or gives something that is not a string, for which
    [fs.existsSync] is false; [Download file] stands for
    [res.download(file)]. *)
Definition existsSync (fs : gmap jsstring jsstring) (file : option jsstring) : bool :=
  match file with
  | Some p => bool_decide (is_Some (fs !! p))
  | None => false
  end.

Definition download (fs : gmap jsstring jsstring) (file : option jsstring) : Response :=
  if existsSync fs file then Download file
  else Send 404 (js "File not found").

End Server.

Definition foo_mx (d : jsstring) : MxAnswer :=
  if bool_decide (d = js "foo.com")
  then {| mx_err := None;
          mx_addresses := Some [{| exchange := js "mx.foo.com"; priority := 10 |}] |}
  else {| mx_err := Some ENOTFOUND; mx_addresses := None |}.

Definition scenario : list (list jsstring) :=
  [ [js "Alice"; js "contact alice@foo.com"];
    [js "Bob"; js "bob@foo.com and alice@foo.com again"] ].

(** ** The properties, as the specification words them *)

Definition fits (h : option nat) (n : nat) : Prop :=
  match h with Some b => n ≤ b | None => True end.

(** The words of a pattern. *)
Inductive matches : list Term → jsstring → Prop :=
  | matches_nil : matches [] []
  | matches_cons t p w v :
      lo t ≤ length w → fits (hi t) (length w) →
      forallb (class t) w = true →
      matches p v →
      matches (t :: p) (w ++ v).

(** [local-part@domain]: a local part of letters, digits and [._%+-], and a
    domain of letters, digits, [.] and [-] that ends in a full stop and a
    label of two letters or more. *)
Definition email_shape (m : jsstring) : Prop :=
  ∃ local dom tld,
    m = local ++ at_sign :: dom ++ full_stop :: tld
    ∧ local ≠ [] ∧ forallb local_char local = true
    ∧ dom ≠ [] ∧ forallb domain_char dom = true
    ∧ 2 ≤ length tld ∧ forallb is_letter tld = true.

(** No candidate starts at the first code unit of [s]. *)
Definition no_email_at (s : jsstring) : Prop :=
  ∀ w r, s = w ++ r → ¬ email_shape w.

(** [Extracted text ms]: [ms] lists, in their order, substrings of [text]
    that do not overlap, each a candidate, and no candidate starts at a code
    unit of [text] left between them. *)
Inductive Extracted : jsstring → list jsstring → Prop :=
  | extracted_end : Extracted [] []
  | extracted_pass c s ms :
      no_email_at (c :: s) → Extracted s ms → Extracted (c :: s) ms
  | extracted_take m s ms :
      email_shape m → Extracted s ms → Extracted (m ++ s) (m :: ms).

(** A string without white space at either end. *)
Definition clean_ends (t : jsstring) : Prop :=
  (∀ c, head t = Some c → is_white c = false)
  ∧ (∀ c, last t = Some c → is_white c = false).

(** [t] is [s] without its leading and trailing white space. *)
Definition Trimmed (s t : jsstring) : Prop :=
  ∃ a b, s = a ++ t ++ b
    ∧ forallb is_white a = true ∧ forallb is_white b = true ∧ clean_ends t.

(** The domain of a candidate in the specification's words: what follows the
    first ['@']. *)
Fixpoint after_first_at (s : jsstring) : option jsstring :=
  match s with
  | [] => None
  | c :: s' => if is_at c then Some s' else after_first_at s'
  end.

Definition count_at (s : jsstring) : nat := length (List.filter is_at s).

Definition no_at (s : jsstring) : Prop := forallb (λ c, negb (is_at c)) s = true.

(** An entry as the collector makes them: the trimmed first field of a row
    with a candidate. *)
Definition accepted_entry (e : jsstring * jsstring) : Prop :=
  (∃ field, e.1 = trim field) ∧ email_shape e.2.

(** What holds of a run at every moment: the entries and the suspended
    handlers carry trimmed names and candidates. *)
Definition task_ok (t : Task) : Prop :=
  (∃ field, task_name t = trim field)
  ∧ email_shape (task_email t) ∧ Forall email_shape (task_rest t)
  ∧ task_promise t = (validateEmail (task_email t)).2.

(** Whether the awaited validation of [email] comes out truthy. *)
Definition accepts (resolveMx : jsstring → MxAnswer) (email : jsstring) : bool :=
  match await resolveMx (validateEmail email).2 with
  | Some v => ToBoolean v
  | None => false
  end.

Definition kept (resolveMx : jsstring → MxAnswer)
    (pairs : list (jsstring * jsstring)) : list (jsstring * jsstring) :=
  filter (λ e, accepts resolveMx e.2 = true) pairs.

(** The name of a row with each of its candidates, and those of all the
    rows of a schedule. *)
Definition row_pairs (row : list jsstring) : list (jsstring * jsstring) :=
  match input_row row with
  | Some (name, url) => List.map (pair name) (extractEmails url)
  | None => []
  end.

Definition delivered (schedule : list Event) : list (jsstring * jsstring) :=
  schedule ≫= λ ev, match ev with Data row => row_pairs row | _ => [] end.

(** The rows a schedule delivers. *)
Definition rows_of (schedule : list Event) : list (list jsstring) :=
  schedule ≫= λ ev, match ev with Data row => [row] | _ => [] end.

(** The pairs a suspended handler has yet to decide. *)
Definition pending (t : Task) : list (jsstring * jsstring) :=
  (task_name t, task_email t) :: List.map (pair (task_name t)) (task_rest t).

Definition run_ok (r : Run) : Prop :=
  Forall accepted_entry (results r) ∧ Forall task_ok (suspended r).

(** The events before the parser has finished: rows and settlements. *)
Definition in_progress (ev : Event) : bool :=
  match ev with Data _ | Settle _ => true | End _ | Error => false end.

Definition is_settlement (ev : Event) : bool :=
  match ev with Settle _ => true | _ => false end.

Definition processing_failure : Response :=
  Json 500 (ErrorBody (js "Error processing file")).

(** ** What Express makes of a response

    [res.download] resolves its path in the working directory of the
    process and gives it to the send package, whose default
    [dotfiles: "ignore"] answers 404 for a path with a component that
    begins with a full stop and is longer than it.  Directories are not in
    the file system of this development. *)

Definition slash : code_unit := 47%N.

(** [path.normalize] on the components of a path: empty components and [.]
    are dropped, [..] drops the component before it.  [seen] is kept in
    reverse. *)
Fixpoint normalize_parts (parts seen : list jsstring) : list jsstring :=
  match parts with
  | [] => rev seen
  | part :: rest =>
      if bool_decide (part = []) || bool_decide (part = js ".")
      then normalize_parts rest seen
      else if bool_decide (part = js "..") then normalize_parts rest (tail seen)
      else normalize_parts rest (part :: seen)
  end.

(** The components of [path.resolve(p)] in the working directory [cwd], an
    absolute path. *)
Definition resolve_parts (cwd p : jsstring) : list jsstring :=
  match p with
  | c :: _ =>
      if (c =? slash)%N then normalize_parts (split slash p) []
      else normalize_parts (split slash cwd ++ split slash p) []
  | [] => normalize_parts (split slash cwd) []
  end.

(** [containsDotFile] of the send package. *)
Definition containsDotFile (parts : list jsstring) : bool :=
  existsb (λ part, match part with
                   | c :: _ :: _ => is_full_stop c
                   | _ => false
                   end) parts.

(** What reaches the client. *)
Inductive Delivery :=
  | FileSent (content : jsstring)
  | ErrorPage (status : nat)       (* an answer of Express, not of the route *)
  | TextSent (status : nat) (text : jsstring)
  | JsonSent (status : nat) (body : Body).

Definition res_download (cwd : jsstring) (fs : gmap jsstring jsstring)
    (file : option jsstring) : Delivery :=
  match file with
  | None => ErrorPage 500
  | Some p =>
      if containsDotFile (resolve_parts cwd p) then ErrorPage 404
      else match fs !! p with
           | Some content => FileSent content
           | None => ErrorPage 404
           end
  end.

Definition deliver (cwd : jsstring) (fs : gmap jsstring jsstring)
    (r : Response) : Delivery :=
  match r with
  | Download file => res_download cwd fs file
  | Send status text => TextSent status text
  | Json status body => JsonSent status body
  end.

(** ** The names of the uploaded files *)

(** [String(n)] for a whole number [n] from 0 to below 10^21: its decimal
    digits. *)
Definition Number_toString (n : N) : jsstring :=
  js (NilEmpty.string_of_uint (N.to_uint n)).

(** The [filename] callback of the disk storage:
    [Date.now() + "-" + file.originalname]. *)
Definition storage_filename (now : N) (originalname : jsstring) : jsstring :=
  Number_toString now ++ js "-" ++ originalname.

(** ** What a run asks and what goes wrong in it *)

(** The names [validateEmail] hands to [dns.resolveMx] for a candidate. *)
Definition asks (email : jsstring) : list jsstring := (validateEmail email).1.

(** The same in words: the domain after the first ['@'], unless it is on the
    blacklist. *)
Definition lookup_of (email : jsstring) : list jsstring :=
  match after_first_at email with
  | Some d => if bool_decide (d ∈ BLACKLISTED_DOMAINS) then [] else [d]
  | None => []
  end.

(** The names a suspended handler will yet ask for: those of the candidates
    its loop has not reached. *)
Definition owed (t : Task) : list jsstring := task_rest t ≫= asks.

(** The fault an event brings by itself: the failure of the write it
    starts. *)
Definition fault_of (ev : Event) : list Fault :=
  match ev with
  | End Written => []
  | End _ => [UncaughtStreamError]
  | _ => []
  end.

(** ** A formatter for the examples

    A stand-in for the parameter [csv_write] in examples and witnesses,
    written after the formatter of fast-csv with its default options: NUL is
    dropped from a field; a field is put in quotes when it holds a quote, a
    comma, a line feed, a carriage return or a vertical bar, a quote being
    doubled inside quotes; fields are joined by commas and rows by line
    feeds, with no line feed after the last row.  No property of the
    repository's code is proved from it. *)
Module Csv.

Definition quote : code_unit := 34%N.
Definition comma : code_unit := 44%N.
Definition line_feed : code_unit := 10%N.
Definition carriage_return : code_unit := 13%N.
Definition vertical_bar : code_unit := 124%N.
Definition nul : code_unit := 0%N.

Definition special (c : code_unit) : bool :=
  ((c =? quote) || (c =? comma) || (c =? line_feed) || (c =? carriage_return)
   || (c =? vertical_bar))%N.

Definition format_field (field : jsstring) : jsstring :=
  let f := List.filter (λ c, negb (c =? nul)%N) field in
  if existsb special f
  then quote :: flat_map (λ c, if (c =? quote)%N then [quote; quote] else [c]) f
       ++ [quote]
  else f.

Fixpoint join (sep : code_unit) (parts : list jsstring) : jsstring :=
  match parts with
  | [] => []
  | [x] => x
  | x :: rest => x ++ sep :: join sep rest
  end.

Definition write (rows : list (list jsstring)) : jsstring :=
  join line_feed (List.map (λ row, join comma (List.map format_field row)) rows).

End Csv.

(** ** Properties *)

Example extract_scenario :
  extractEmails (js "bob@foo.com and alice@foo.com again")
  = [js "bob@foo.com"; js "alice@foo.com"].
Proof. vm_compute. reflexivity. Qed.

Example extract_backtracks :
  extractEmails (js "x a@b.com.x, c@d.e.fg-h") = [js "a@b.com"; js "c@d.e.fg"].
Proof. vm_compute. reflexivity. Qed.

Example extract_needs_two_letters :
  extractEmails (js "a@b.c, a@@b.com") = []
  ∧ extractEmails (js "x@y.com1 a@b.co.uk") = [js "x@y.com"; js "a@b.co.uk"].
Proof. vm_compute. split; reflexivity. Qed.

Example trim_example : trim (js "  Smith, Al ") = js "Smith, Al".
Proof. vm_compute. reflexivity. Qed.

Example validate_sentry :
  validateEmail (js "user@sentry.io") = ([], Fulfilled (JsBool false)).
Proof. vm_compute. reflexivity. Qed.

Example validate_foo :
  validateEmail (js "bob@foo.com") = ([js "foo.com"], AwaitingMx (js "foo.com")).
Proof. vm_compute. reflexivity. Qed.

Example scenario_results :
  results (processCSV foo_mx (fun _ => []) ∅ (in_turn scenario Written))
  = [ (js "Alice", js "alice@foo.com"); (js "Bob", js "bob@foo.com");
      (js "Bob", js "alice@foo.com") ].
Proof. vm_compute. reflexivity. Qed.

Example csv_write_quotes :
  Csv.write [header; [js "Smith, Al"; js "al@foo.com"]]
  = js "Name,Email" ++ [Csv.line_feed; Csv.quote] ++ js "Smith, Al"
    ++ [Csv.quote] ++ js ",al@foo.com".
Proof. vm_compute. reflexivity. Qed.

(** *** Character classes *)

Ltac class_facts :=
  unfold local_char, domain_char, is_letter, is_digit, is_white, is_at,
    is_full_stop, in_range, at_sign, full_stop in *;
  rewrite ?orb_true_iff, ?andb_true_iff, ?orb_false_iff, ?andb_false_iff,
    ?N.leb_le, ?N.leb_gt, ?N.eqb_eq, ?N.eqb_neq in *;
  lia.

Lemma letter_is_domain_char c : is_letter c = true → domain_char c = true.
Proof. unfold domain_char. intros ->. reflexivity. Qed.

Lemma domain_is_local_char c : domain_char c = true → local_char c = true.
Proof.
  intros H. class_facts.
Qed.

Lemma local_char_not_white c : local_char c = true → is_white c = false.
Proof. intros H. class_facts. Qed.

Lemma local_char_not_at c : local_char c = true → is_at c = false.
Proof. intros H. class_facts. Qed.


(** *** Trimming *)

Lemma head_rev (t : jsstring) : head (rev t) = last t.
Proof.
  induction t as [|x t _] using rev_ind; [reflexivity|].
  rewrite rev_app_distr, last_snoc. reflexivity.
Qed.

Lemma trimStart_split s :
  ∃ a, s = a ++ trimStart s ∧ forallb is_white a = true
       ∧ ∀ c, head (trimStart s) = Some c → is_white c = false.
Proof.
  induction s as [|c s IH]; simpl.
  - exists []. repeat split. discriminate.
  - destruct (is_white c) eqn:E.
    + destruct IH as (a & Hs & Ha & Hh). exists (c :: a). simpl.
      rewrite E, Ha. repeat split; [congruence | exact Hh].
    + exists []. repeat split. simpl. intros c' [= <-]. exact E.
Qed.

Lemma trimStart_clean t :
  (∀ c, head t = Some c → is_white c = false) → trimStart t = t.
Proof.
  destruct t as [|c t]; [reflexivity|]. intros H. simpl.
  rewrite (H c); reflexivity.
Qed.

Lemma trim_Trimmed s : Trimmed s (trim s).
Proof.
  unfold trim, trimEnd.
  destruct (trimStart_split s) as (a & Hs & Ha & Hh).
  destruct (trimStart_split (rev (trimStart s))) as (b & Hu & Hb & Hl).
  set (u := trimStart s) in *. set (v := trimStart (rev u)) in *.
  assert (Eu : u = rev v ++ rev b).
  { rewrite <- rev_app_distr, <- Hu, rev_involutive. reflexivity. }
  exists a, (rev b). repeat split.
  - rewrite <- Eu. exact Hs.
  - exact Ha.
  - rewrite forallb_forall in *. intros x Hx. apply Hb, in_rev, Hx.
  - intros c Hc. apply Hh. rewrite Eu.
    destruct (rev v); [discriminate | exact Hc].
  - intros c Hc. apply Hl. rewrite <- (rev_involutive v), head_rev. exact Hc.
Qed.

Lemma trim_clean t : clean_ends t → trim t = t.
Proof.
  intros [Hh Hl]. unfold trim, trimEnd.
  rewrite (trimStart_clean t Hh), trimStart_clean, rev_involutive; [reflexivity|].
  intros c. rewrite head_rev. apply Hl.
Qed.

Lemma trim_idempotent s : trim (trim s) = trim s.
Proof.
  destruct (trim_Trimmed s) as (_ & _ & _ & _ & _ & H). apply trim_clean, H.
Qed.

(** *** The matcher against the words of its pattern *)

Lemma repeat_class_sound c l h s k n :
  repeat_class c l h s k = Some n →
  ∃ w r m, s = w ++ r ∧ l ≤ length w ∧ fits h (length w)
    ∧ forallb c w = true ∧ k r = Some m ∧ n = length w + m.
Proof.
  revert l h n. induction s as [|x s IH]; intros l h n; simpl.
  - destruct l; [|discriminate]. intros Hk.
    exists [], [], n. repeat split; simpl; auto. destruct h; simpl; lia.
  - assert (Hstop : match l with 0 => k (x :: s) | S _ => None end = Some n →
      ∃ w r m, x :: s = w ++ r ∧ l ≤ length w ∧ fits h (length w)
        ∧ forallb c w = true ∧ k r = Some m ∧ n = length w + m).
    { destruct l; [|discriminate]. intros Hk.
      exists [], (x :: s), n. repeat split; simpl; auto.
      destruct h; simpl; lia. }
    destruct (c x) eqn:Hc; simpl; [|exact Hstop].
    destruct (may_take h) eqn:Hh; [|exact Hstop].
    destruct (repeat_class c (pred l) (taken h) s k) as [n'|] eqn:Hrec;
      [|exact Hstop].
    intros [= <-]. destruct (IH _ _ _ Hrec) as (w & r & m & -> & Hl & Hf & Hw & Hk & ->).
    exists (x :: w), r, m. simpl. rewrite Hc, Hw. repeat split; auto; [lia|].
    destruct h as [[|b]|]; simpl in *; try discriminate; auto; lia.
Qed.

Lemma repeat_class_complete c l h w r k :
  l ≤ length w → fits h (length w) → forallb c w = true →
  is_Some (k r) → is_Some (repeat_class c l h (w ++ r) k).
Proof.
  revert l h. induction w as [|x w IH]; intros l h Hl Hf Hw Hk; simpl in *.
  - assert (l = 0) as -> by lia.
    destruct r as [|y r]; simpl; [exact Hk|].
    destruct (c y && may_take h); [|exact Hk].
    destruct (repeat_class c 0 (taken h) r k); [eauto | exact Hk].
  - apply andb_true_iff in Hw as [-> Hw]. simpl.
    assert (may_take h = true) as ->.
    { destruct h as [[|b]|]; simpl in *; auto; lia. }
    destruct (IH (pred l) (taken h)) as [n ->]; eauto; [lia|].
    destruct h as [b|]; simpl in *; auto; lia.
Qed.

Lemma match_here_sound p s n :
  match_here p s = Some n → n ≤ length s ∧ matches p (firstn n s).
Proof.
  revert s n. induction p as [|t p IH]; intros s n; simpl.
  - intros [= <-]. split; [lia | constructor].
  - intros H. apply repeat_class_sound in H
      as (w & r & m & -> & Hl & Hf & Hw & Hk & ->).
    apply IH in Hk as [Hm Hp]. rewrite length_app. split; [lia|].
    rewrite firstn_app, firstn_all2 by lia.
    replace (length w + m - length w) with m by lia.
    constructor; assumption.
Qed.

Lemma match_here_complete p w r :
  matches p w → is_Some (match_here p (w ++ r)).
Proof.
  induction 1 as [|t p w v Hl Hf Hw _ IH]; simpl; [eauto|].
  rewrite <- app_assoc. apply repeat_class_complete; assumption.
Qed.

Lemma email_shape_matches m : email_shape m ↔ matches emailPattern m.
Proof.
  split.
  - intros (local & dom & tld & -> & Hl & Hlc & Hd & Hdc & Ht & Htc).
    unfold emailPattern.
    apply (matches_cons (at_least 1 local_char)); simpl; auto.
    { destruct local; simpl; [congruence | lia]. }
    apply (matches_cons (one is_at) _ [at_sign]); simpl; auto.
    apply (matches_cons (at_least 1 domain_char)); simpl; auto.
    { destruct dom; simpl; [congruence | lia]. }
    apply (matches_cons (one is_full_stop) _ [full_stop]); simpl; auto.
    rewrite <- (app_nil_r tld).
    apply (matches_cons (at_least 2 is_letter)); simpl; auto. constructor.
  - unfold emailPattern. intros H.
    inversion H as [|? ? local v1 Hl _ Hlc H1]; subst; clear H.
    inversion H1 as [|? ? a v2 Ha1 Ha2 Hac H2]; subst; clear H1.
    inversion H2 as [|? ? dom v3 Hd _ Hdc H3]; subst; clear H2.
    inversion H3 as [|? ? f v4 Hf1 Hf2 Hfc H4]; subst; clear H3.
    inversion H4 as [|? ? tld v5 Ht _ Htc H5]; subst; clear H4.
    inversion H5; subst; clear H5. simpl in *.
    destruct a as [|a [|? ?]]; simpl in *; try lia.
    destruct f as [|f [|? ?]]; simpl in *; try lia.
    rewrite andb_true_r in Hac, Hfc.
    apply N.eqb_eq in Hac as ->. apply N.eqb_eq in Hfc as ->.
    exists local, dom, tld. rewrite app_nil_r. repeat split; auto.
    + intros ->. simpl in Hl. lia.
    + intros ->. simpl in Hd. lia.
Qed.

(** *** The matches of a text *)

Lemma match_from_cons p c s :
  match_from p (c :: s) 0
  = match match_here p (c :: s) with
    | Some n => firstn n (c :: s) :: match_from p s (pred n)
    | None => match_from p s 0
    end.
Proof. reflexivity. Qed.

Lemma match_from_skip p w s :
  match_from p (w ++ s) (length w) = match_from p s 0.
Proof. induction w as [|x w IH]; [destruct s|]; simpl; auto. Qed.

Lemma email_shape_length m : email_shape m → 5 ≤ length m.
Proof.
  intros (local & dom & tld & -> & Hl & _ & Hd & _ & Ht & _).
  destruct local; [congruence|]. destruct dom; [congruence|].
  simpl. rewrite length_app. simpl. rewrite length_app. simpl. lia.
Qed.

Lemma extractEmails_match_from text :
  extractEmails text = match_from emailPattern text 0.
Proof.
  unfold extractEmails, String_match. simpl.
  destruct (match_from emailPattern text 0); reflexivity.
Qed.

Lemma match_from_Extracted s : Extracted s (match_from emailPattern s 0).
Proof.
  remember (length s) as n eqn:Hn. revert s Hn.
  induction n as [n IH] using lt_wf_ind. intros [|c s] Hn.
  - constructor.
  - rewrite match_from_cons.
    destruct (match_here emailPattern (c :: s)) as [k|] eqn:E.
    + apply match_here_sound in E as [Hk Hm].
      apply email_shape_matches in Hm.
      pose proof (email_shape_length _ Hm) as Hlen.
      rewrite length_firstn in Hlen. simpl in Hk.
      destruct k as [|k]; [lia|]. simpl in *.
      assert (Hs : match_from emailPattern s k
                   = match_from emailPattern (skipn k s) 0).
      { rewrite <- (match_from_skip _ (firstn k s)).
        rewrite firstn_skipn, length_firstn. f_equal. lia. }
      rewrite Hs.
      assert (HE : Extracted (skipn k s) (match_from emailPattern (skipn k s) 0)).
      { apply (IH (length (skipn k s))); [|reflexivity].
        rewrite length_skipn. lia. }
      pose proof (extracted_take (c :: firstn k s) _ _ Hm HE) as H.
      simpl in H. rewrite firstn_skipn in H. exact H.
    + apply extracted_pass.
      * intros w r Hs Hw. apply email_shape_matches in Hw.
        destruct (match_here_complete _ _ r Hw) as [k Hk]. congruence.
      * apply (IH (length s)); [subst; simpl; lia | reflexivity].
Qed.

Lemma Extracted_shape s ms : Extracted s ms → Forall email_shape ms.
Proof. induction 1; auto. Qed.

Lemma Extracted_substring s ms :
  Extracted s ms → Forall (λ m, ∃ a b, s = a ++ m ++ b) ms.
Proof.
  induction 1 as [|c s ms _ _ IH|m s ms _ _ IH]; auto.
  - eapply Forall_impl; [exact IH|]. simpl.
    intros m (a & b & ->). exists (c :: a), b. reflexivity.
  - constructor.
    + exists [], s. reflexivity.
    + eapply Forall_impl; [exact IH|]. simpl.
      intros m' (a & b & ->). exists (m ++ a), b. rewrite <- app_assoc. reflexivity.
Qed.

Lemma extracted_are_candidates text m :
  m ∈ extractEmails text → email_shape m.
Proof.
  intros Hm. pose proof (Extracted_shape _ _ (match_from_Extracted text)) as H.
  rewrite <- extractEmails_match_from in H.
  rewrite Forall_forall in H. apply H. exact Hm.
Qed.

(** *** Splitting at ['@'] *)

Lemma split_no_at s : no_at s → split at_sign s = [s].
Proof.
  unfold no_at. induction s as [|c s IH]; simpl; [reflexivity|].
  intros H. apply andb_true_iff in H as [Hc Hs].
  unfold is_at in Hc. apply negb_true_iff in Hc. rewrite Hc, (IH Hs). reflexivity.
Qed.

Lemma split_at_first a b :
  no_at a → split at_sign (a ++ at_sign :: b) = a :: split at_sign b.
Proof.
  unfold no_at. induction a as [|c a IH]; simpl.
  - intros _. reflexivity.
  - intros H. apply andb_true_iff in H as [Hc Ha].
    unfold is_at in Hc. apply negb_true_iff in Hc. rewrite Hc, (IH Ha). reflexivity.
Qed.

Lemma after_first_at_split s d :
  after_first_at s = Some d → ∃ a, s = a ++ at_sign :: d ∧ no_at a.
Proof.
  unfold no_at. induction s as [|c s IH]; simpl; [discriminate|].
  destruct (is_at c) eqn:Hc.
  - intros [= ->]. exists []. split; [|reflexivity].
    unfold is_at in Hc. apply N.eqb_eq in Hc as ->. reflexivity.
  - intros H. destruct (IH H) as (a & -> & Ha). exists (c :: a).
    simpl. rewrite Hc, Ha. split; reflexivity.
Qed.

Lemma after_first_at_app a d : no_at a → after_first_at (a ++ at_sign :: d) = Some d.
Proof.
  unfold no_at. induction a as [|c a IH]; simpl; [reflexivity|].
  intros H. apply andb_true_iff in H as [Hc Ha].
  apply negb_true_iff in Hc. rewrite Hc. apply IH, Ha.
Qed.

Lemma count_at_no_at s : no_at s → count_at s = 0.
Proof.
  unfold no_at, count_at. induction s as [|c s IH]; simpl; [reflexivity|].
  intros H. apply andb_true_iff in H as [Hc Hs].
  apply negb_true_iff in Hc. rewrite Hc. apply IH, Hs.
Qed.

Lemma count_at_app a b : count_at (a ++ b) = count_at a + count_at b.
Proof. unfold count_at. rewrite List.filter_app, length_app. reflexivity. Qed.

Lemma local_part_no_at s : forallb local_char s = true → no_at s.
Proof.
  unfold no_at. rewrite !forallb_forall. intros H c Hc.
  rewrite (local_char_not_at c (H c Hc)). reflexivity.
Qed.

Lemma domain_part_no_at s : forallb domain_char s = true → no_at s.
Proof.
  intros H. apply local_part_no_at. rewrite forallb_forall in *.
  intros c Hc. apply domain_is_local_char, H, Hc.
Qed.

(** A candidate is a local part, one ['@'] and a domain that holds none. *)
Lemma email_shape_parts m :
  email_shape m →
  ∃ local d, m = local ++ at_sign :: d ∧ no_at local ∧ no_at d ∧ d ≠ []
    ∧ clean_ends m.
Proof.
  intros (local & dom & tld & -> & Hl & Hlc & Hd & Hdc & Ht & Htc).
  exists local, (dom ++ full_stop :: tld).
  assert (Hdom : forallb domain_char (dom ++ full_stop :: tld) = true).
  { rewrite forallb_app, Hdc. simpl. rewrite forallb_forall in *.
    intros c Hc. apply letter_is_domain_char, Htc, Hc. }
  repeat split.
  - apply local_part_no_at, Hlc.
  - apply domain_part_no_at, Hdom.
  - destruct dom; [congruence | discriminate].
  - destruct local as [|x local]; [congruence|]. simpl. intros c [= <-].
    simpl in Hlc. apply andb_true_iff in Hlc as [Hx _].
    apply local_char_not_white, Hx.
  - intros c Hc. clear Hdom.
    destruct tld as [|y tld _] using rev_ind; [simpl in Ht; lia|].
    assert (E : local ++ at_sign :: dom ++ full_stop :: tld ++ [y]
                = (local ++ at_sign :: dom ++ full_stop :: tld) ++ [y]).
    { repeat (rewrite <- app_assoc || simpl). reflexivity. }
    rewrite E, last_snoc in Hc. injection Hc as <-.
    rewrite forallb_app in Htc. apply andb_true_iff in Htc as [_ Hy].
    simpl in Hy. rewrite andb_true_r in Hy.
    apply local_char_not_white, domain_is_local_char, letter_is_domain_char, Hy.
Qed.

Lemma email_shape_split m :
  email_shape m → ∃ local d, split at_sign m = [local; d] ∧ d ≠ []
    ∧ after_first_at m = Some d ∧ count_at m = 1.
Proof.
  intros H. destruct (email_shape_parts m H) as (local & d & -> & Hl & Hd & Hne & _).
  exists local, d. repeat split.
  - rewrite (split_at_first _ _ Hl), (split_no_at _ Hd). reflexivity.
  - exact Hne.
  - apply after_first_at_app, Hl.
  - rewrite count_at_app. change (at_sign :: d) with ([at_sign] ++ d).
    rewrite count_at_app, (count_at_no_at _ Hl), (count_at_no_at _ Hd). reflexivity.
Qed.

Lemma email_shape_trim m : email_shape m → trim m = m.
Proof.
  intros H. apply trim_clean.
  destruct (email_shape_parts m H) as (? & ? & _ & _ & _ & _ & Hc). exact Hc.
Qed.

(** *** The collector *)

Lemma property_names_no_at : Forall no_at Set_property_names.
Proof.
  unfold no_at, Set_property_names.
  repeat (constructor; [vm_compute; reflexivity|]). constructor.
Qed.

(** The [in] test of the collector is false for every candidate, whatever
    the set holds. *)
Lemma js_in_candidate (m : jsstring) (s : gset jsstring) : email_shape m → js_in m s = false.
Proof.
  intros H. unfold js_in. apply bool_decide_eq_false. intros Hin.
  pose proof property_names_no_at as Hno. rewrite Forall_forall in Hno.
  apply Hno, count_at_no_at in Hin.
  destruct (email_shape_split m H) as (? & ? & _ & _ & _ & Hc). lia.
Qed.

Lemma advance_keeps name cs r :
  emails (advance name cs r) = emails r
  ∧ results (advance name cs r) = results r
  ∧ files (advance name cs r) = files r
  ∧ settled (advance name cs r) = settled r
  ∧ faults (advance name cs r) = faults r.
Proof.
  induction cs as [|email rest IH]; simpl; [tauto|].
  destruct (js_in email (emails r)); [exact IH|].
  destruct (validateEmail email). simpl. tauto.
Qed.

Lemma advance_ok name cs r :
  (∃ field, name = trim field) → Forall email_shape cs →
  run_ok r → run_ok (advance name cs r).
Proof.
  intros Hn Hcs [Hr Hs]. destruct cs as [|email rest]; [split; assumption|].
  simpl. inversion Hcs as [|? ? He Hrest]; subst.
  rewrite (js_in_candidate _ _ He). destruct (validateEmail email) eqn:E.
  split; simpl; [exact Hr|]. apply Forall_app. split; [exact Hs|].
  constructor; [|constructor]. repeat split; simpl; try assumption.
  rewrite E. reflexivity.
Qed.

Lemma resume_ok resolveMx t r :
  task_ok t → run_ok r → run_ok (resume resolveMx t r).
Proof.
  intros (Hn & He & Hrest & _) [Hr Hs]. unfold resume.
  destruct (await resolveMx (task_promise t)) as [v|]; [|split; assumption].
  destruct (ToBoolean v); apply advance_ok; try assumption; [|split; assumption].
  split; simpl; [|exact Hs]. apply Forall_app. split; [exact Hr|].
  repeat constructor; simpl; assumption.
Qed.

Lemma input_row_ok row name url :
  input_row row = Some (name, url) →
  ∃ f0 f1 more, row = f0 :: f1 :: more ∧ name = trim f0 ∧ url = trim f1.
Proof.
  unfold input_row. destruct (2 <=? length row); [|discriminate].
  destruct row as [|f0 [|f1 more]]; try discriminate.
  intros [= <- <-]. exists f0, f1, more. repeat split.
Qed.

Lemma step_ok resolveMx csv_write r ev :
  run_ok r → run_ok (step resolveMx csv_write r ev).
Proof.
  intros Hr. destruct ev as [row|k|w|]; simpl.
  - destruct (input_row row) as [[name url]|] eqn:E; [|exact Hr].
    apply input_row_ok in E as (f0 & f1 & more & _ & -> & ->).
    apply advance_ok; eauto.
    rewrite Forall_forall. intros m. apply extracted_are_candidates.
  - destruct (suspended r !! k) as [t|] eqn:E; [|exact Hr].
    destruct Hr as [Hr Hs]. apply resume_ok.
    + rewrite Forall_lookup in Hs. eapply Hs, E.
    + split; simpl; [exact Hr | apply Forall_delete, Hs].
  - exact Hr.
  - exact Hr.
Qed.

Lemma processCSV_ok resolveMx csv_write fs schedule :
  run_ok (processCSV resolveMx csv_write fs schedule).
Proof.
  unfold processCSV.
  assert (H0 : run_ok (start fs)) by (split; constructor).
  revert H0. generalize (start fs).
  induction schedule as [|ev evs IH]; intros r Hr; simpl; [exact Hr|].
  apply IH, step_ok, Hr.
Qed.

Lemma processCSV_snoc resolveMx csv_write fs schedule ev :
  processCSV resolveMx csv_write fs (schedule ++ [ev])
  = step resolveMx csv_write (processCSV resolveMx csv_write fs schedule) ev.
Proof. unfold processCSV. rewrite fold_left_app. reflexivity. Qed.

(** *** What a run collects *)

Lemma candidate_validation email :
  email_shape email →
  ∃ d, split at_sign email !! 1 = Some d ∧ d ≠ []
    ∧ (validateEmail email = ([], Fulfilled (JsBool false))
       ∨ validateEmail email = ([d], AwaitingMx d)).
Proof.
  intros H. destruct (email_shape_split email H) as (local & d & Hs & Hne & _).
  exists d. unfold validateEmail. rewrite Hs. simpl. repeat split; [exact Hne|].
  destruct (bool_decide (d ∈ BLACKLISTED_DOMAINS)); auto.
Qed.

Lemma accepts_candidate resolveMx email :
  email_shape email →
  ∃ v, await resolveMx (validateEmail email).2 = Some v
       ∧ accepts resolveMx email = ToBoolean v.
Proof.
  intros H. unfold accepts.
  destruct (candidate_validation email H) as (d & _ & _ & [-> | ->]);
    simpl; eauto.
Qed.

Lemma advance_pending name cs r :
  Forall email_shape cs →
  results (advance name cs r) = results r
  ∧ suspended (advance name cs r) ≫= pending
    = (suspended r ≫= pending) ++ List.map (pair name) cs.
Proof.
  intros Hcs. destruct cs as [|email rest]; simpl.
  - rewrite app_nil_r. split; reflexivity.
  - inversion Hcs; subst. rewrite js_in_candidate by assumption.
    destruct (validateEmail email). simpl. split; [reflexivity|].
    rewrite bind_app. simpl. rewrite app_nil_r. reflexivity.
Qed.

Lemma resume_accounts resolveMx t r :
  task_ok t →
  results (resume resolveMx t r)
    ++ kept resolveMx (suspended (resume resolveMx t r) ≫= pending)
  ≡ₚ results r ++ kept resolveMx (pending t ++ (suspended r ≫= pending)).
Proof.
  intros (_ & He & Hrest & Hp). unfold resume. rewrite Hp.
  destruct (accepts_candidate resolveMx _ He) as (v & -> & Hv).
  unfold kept. rewrite filter_app.
  destruct (ToBoolean v) eqn:Ev;
    match goal with |- context [advance ?n ?cs ?r0] =>
      destruct (advance_pending n cs r0 Hrest) as [-> ->]
    end; simpl results; simpl suspended; rewrite filter_app;
    change (pending t)
      with ((task_name t, task_email t)
            :: List.map (pair (task_name t)) (task_rest t)).
  - rewrite filter_cons_True by (simpl; congruence).
    rewrite <- !app_assoc. f_equiv. simpl. f_equiv. apply Permutation_app_comm.
  - rewrite filter_cons_False by (simpl; congruence).
    f_equiv. apply Permutation_app_comm.
Qed.

Lemma kept_nil resolveMx : kept resolveMx [] = [].
Proof. reflexivity. Qed.

Lemma kept_app resolveMx a b :
  kept resolveMx (a ++ b) = kept resolveMx a ++ kept resolveMx b.
Proof. apply filter_app. Qed.

Lemma step_accounts resolveMx csv_write r ev :
  run_ok r →
  results (step resolveMx csv_write r ev)
    ++ kept resolveMx (suspended (step resolveMx csv_write r ev) ≫= pending)
  ≡ₚ (results r ++ kept resolveMx (suspended r ≫= pending))
     ++ kept resolveMx (delivered [ev]).
Proof.
  intros [Hr Hs]. unfold delivered. simpl. rewrite app_nil_r.
  destruct ev as [row|k|w|]; simpl; rewrite ?kept_nil, ?app_nil_r;
    try reflexivity.
  - unfold row_pairs. destruct (input_row row) as [[name url]|];
      [|rewrite kept_nil, app_nil_r; reflexivity].
    destruct (advance_pending name (extractEmails url) r) as [-> ->].
    { rewrite Forall_forall. intros m. apply extracted_are_candidates. }
    rewrite kept_app, app_assoc. reflexivity.
  - destruct (suspended r !! k) as [t|] eqn:E; [|reflexivity].
    rewrite resume_accounts by (rewrite Forall_lookup in Hs; eapply Hs, E).
    simpl. f_equiv. unfold kept.
    rewrite (delete_Permutation _ _ _ E) at 2. reflexivity.
Qed.

(** The entries collected and those yet to be decided are, at every moment,
    the pairs of the rows delivered whose validation is truthy: no pair is
    left out for being in the set already. *)
Lemma run_accounts resolveMx csv_write fs schedule :
  let r := processCSV resolveMx csv_write fs schedule in
  results r ++ kept resolveMx (suspended r ≫= pending)
  ≡ₚ kept resolveMx (delivered schedule).
Proof.
  induction schedule as [|ev schedule IH] using rev_ind; [reflexivity|].
  cbv zeta in *. rewrite processCSV_snoc.
  rewrite step_accounts by apply processCSV_ok. rewrite IH.
  unfold delivered. rewrite bind_app, kept_app. reflexivity.
Qed.

(** ** The claims *)

Lemma blacklisted_no_at d : d ∈ BLACKLISTED_DOMAINS → no_at d.
Proof.
  unfold BLACKLISTED_DOMAINS. rewrite elem_of_list_to_set, !elem_of_cons, elem_of_nil.
  intros [->|[->|[->|[]]]]; reflexivity.
Qed.

Lemma delivered_rows schedule : delivered schedule = rows_of schedule ≫= row_pairs.
Proof.
  unfold delivered, rows_of. induction schedule as [|ev schedule IH]; [reflexivity|].
  rewrite !bind_cons, bind_app, IH. destruct ev; simpl; rewrite ?app_nil_r; reflexivity.
Qed.

(** Whatever the order of the events, once the rows of the scenario are
    delivered and no handler is left waiting, [alice@foo.com] has been
    collected twice. *)
Lemma scenario_collects_duplicate csv_write fs schedule :
  rows_of schedule = scenario →
  suspended (processCSV foo_mx csv_write fs schedule) = [] →
  results (processCSV foo_mx csv_write fs schedule)
  ≡ₚ [ (js "Alice", js "alice@foo.com"); (js "Bob", js "bob@foo.com");
       (js "Bob", js "alice@foo.com") ].
Proof.
  intros Hrows Hdone.
  pose proof (run_accounts foo_mx csv_write fs schedule) as H. cbv zeta in H.
  rewrite Hdone, delivered_rows, Hrows in H. simpl in H.
  rewrite app_nil_r in H. rewrite H. vm_compute. reflexivity.
Qed.

(** C1 (not met by the code): the output of a run should hold no e-mail
    twice.  On the rows of the scenario, [foo.com] off the blacklist and
    resolvable, the handler collects [alice@foo.com] a second time, for Bob,
    whether the lookups are answered between the rows or after them: its
    test [email in emails] never finds an element of the set. *)
Theorem C1_duplicate_is_collected csv_write :
  let collected :=
    [ (js "Alice", js "alice@foo.com"); (js "Bob", js "bob@foo.com");
      (js "Bob", js "alice@foo.com") ] in
  results (processCSV foo_mx csv_write ∅ (in_turn scenario Written)) = collected
  ∧ results (processCSV foo_mx csv_write ∅
       (List.map Data scenario ++ [Settle 0; Settle 0; Settle 0; End Written]))
    = collected
  ∧ ¬ NoDup (List.map snd collected).
Proof.
  intros collected. split; [vm_compute; reflexivity|].
  split; [vm_compute; reflexivity|].
  simpl. intros H. apply NoDup_cons_1_1 in H. apply H.
  rewrite !elem_of_cons. auto.
Qed.

(** C2: a candidate whose domain, what follows its first ['@'], is on the
    blacklist is rejected by [validateEmail] whatever the resolver would
    answer, and no MX lookup is issued for it. *)
Theorem C2_blacklist_short_circuits resolveMx email d :
  after_first_at email = Some d → d ∈ BLACKLISTED_DOMAINS →
  validateEmail email = ([], Fulfilled (JsBool false))
  ∧ await resolveMx (validateEmail email).2 = Some (JsBool false)
  ∧ ∀ name r, lookups (advance name [email] r) = lookups r.
Proof.
  intros Hd Hb.
  assert (E : validateEmail email = ([], Fulfilled (JsBool false))).
  { apply after_first_at_split in Hd as (a & -> & Ha).
    unfold validateEmail.
    rewrite (split_at_first _ _ Ha), (split_no_at _ (blacklisted_no_at _ Hb)).
    simpl. rewrite (bool_decide_eq_true_2 _ Hb). reflexivity. }
  rewrite E. repeat split. intros name r. simpl. rewrite E.
  destruct (js_in email (emails r)); simpl; [|rewrite app_nil_r]; reflexivity.
Qed.

Lemma C2_witness :
  validateEmail (js "user@sentry.io") = ([], Fulfilled (JsBool false))
  ∧ await foo_mx (validateEmail (js "user@sentry.io")).2 = Some (JsBool false)
  ∧ ∀ name r, lookups (advance name [js "user@sentry.io"] r) = lookups r.
Proof.
  apply (C2_blacklist_short_circuits foo_mx (js "user@sentry.io") (js "sentry.io")).
  - reflexivity.
  - apply (bool_decide_unpack _). vm_compute. exact I.
Defined.

Lemma validateEmail_candidate email d :
  email_shape email → after_first_at email = Some d →
  split at_sign email !! 1 = Some d ∧ d ≠ [].
Proof.
  intros H Hd. destruct (email_shape_split email H) as (local & d' & -> & Hne & Hd' & _).
  rewrite Hd in Hd'. injection Hd' as <-. split; [reflexivity | exact Hne].
Qed.

(** C3: for a candidate whose domain is not on the blacklist,
    [validateEmail] issues one MX lookup for the domain and accepts exactly
    when the lookup reports no error and at least one record; a failed
    lookup never throws, and the handler that awaited it goes on without an
    entry, a fault or a settlement of the run. *)
Theorem C3_accept_iff_mx_records resolveMx csv_write email d :
  email_shape email → after_first_at email = Some d →
  d ∉ BLACKLISTED_DOMAINS →
  validateEmail email = ([d], AwaitingMx d)
  ∧ (∃ v, await resolveMx (validateEmail email).2 = Some v
       ∧ (ToBoolean v = true ↔
            mx_err (resolveMx d) = None
            ∧ ∃ l, mx_addresses (resolveMx d) = Some l ∧ l ≠ []))
  ∧ (∀ r k t,
       suspended r !! k = Some t →
       task_promise t = (validateEmail email).2 →
       ToBoolean (mx_verdict (resolveMx d)) = false →
       let r' := step resolveMx csv_write r (Settle k) in
       results r' = results r ∧ faults r' = faults r
       ∧ settled r' = settled r ∧ files r' = files r).
Proof.
  intros He Hd Hb.
  destruct (validateEmail_candidate _ _ He Hd) as [Hs _].
  assert (E : validateEmail email = ([d], AwaitingMx d)).
  { unfold validateEmail. rewrite Hs. simpl.
    rewrite (bool_decide_eq_false_2 _ Hb). reflexivity. }
  rewrite E. simpl. split; [reflexivity|]. split.
  - eexists. split; [reflexivity|]. unfold mx_verdict.
    destruct (mx_err (resolveMx d)); simpl.
    { split; [discriminate | intros [? _]; discriminate]. }
    destruct (mx_addresses (resolveMx d)) as [[|a l]|]; simpl.
    + split; [discriminate | intros [_ (l & [= <-] & Hl)]; congruence].
    + split; [|reflexivity]. intros _. split; [reflexivity|].
      exists (a :: l). split; [reflexivity | discriminate].
    + split; [discriminate | intros [_ (l & Hl & _)]; discriminate].
  - intros r k t Ht Hp Hv. simpl. rewrite Ht. unfold resume.
    rewrite Hp. simpl. rewrite Hv.
    destruct (advance_keeps (task_name t) (task_rest t)
      {| emails := emails r; results := results r;
         suspended := delete k (suspended r); lookups := lookups r;
         files := files r; settled := settled r; faults := faults r |})
      as (_ & H1 & H2 & H3 & H4).
    simpl in *. auto.
Qed.

Lemma C3_witness :
  validateEmail (js "bob@foo.com") = ([js "foo.com"], AwaitingMx (js "foo.com"))
  ∧ (∃ v, await foo_mx (validateEmail (js "bob@foo.com")).2 = Some v
       ∧ (ToBoolean v = true ↔
            mx_err (foo_mx (js "foo.com")) = None
            ∧ ∃ l, mx_addresses (foo_mx (js "foo.com")) = Some l ∧ l ≠ []))
  ∧ (∀ r k t,
       suspended r !! k = Some t →
       task_promise t = (validateEmail (js "bob@foo.com")).2 →
       ToBoolean (mx_verdict (foo_mx (js "foo.com"))) = false →
       let r' := step foo_mx Csv.write r (Settle k) in
       results r' = results r ∧ faults r' = faults r
       ∧ settled r' = settled r ∧ files r' = files r).
Proof.
  apply (C3_accept_iff_mx_records foo_mx Csv.write (js "bob@foo.com") (js "foo.com")).
  - exists (js "bob"), (js "foo"), (js "com"). vm_compute.
    repeat split; try discriminate. lia.
  - reflexivity.
  - apply (bool_decide_unpack _). vm_compute. exact I.
Defined.

(** C4: the extractor returns, in their order, substrings of the text that do
    not overlap and have the form local-part@domain, taken as they stand in
    the text, and no substring of that form starts at a code unit left
    between them; the result does not depend on the [lastIndex] an earlier
    use left in the pattern, which is 0 again afterwards; the empty text
    gives the empty list. *)
Theorem C4_extractor_contract (text : jsstring) :
  Extracted text (extractEmails text)
  ∧ Forall (λ m, ∃ before after, text = before ++ m ++ after) (extractEmails text)
  ∧ (∀ n, String_match text {| source := emailPattern; lastIndex := n |}
          = String_match text emailRegex
          ∧ snd (String_match text emailRegex) = emailRegex)
  ∧ extractEmails [] = [].
Proof.
  rewrite extractEmails_match_from. repeat split.
  - apply match_from_Extracted.
  - apply Extracted_substring, match_from_Extracted.
Qed.

(** C5: a row of fewer than two fields changes nothing in the run: no
    candidate, no lookup, no fault; of a row of two fields or more the
    handler takes the first two with the white space at their ends
    removed. *)
Theorem C5_row_reader resolveMx csv_write (r : Run) (row : list jsstring) :
  (length row < 2 → step resolveMx csv_write r (Data row) = r)
  ∧ (∀ f0 f1 more, row = f0 :: f1 :: more →
       ∃ name text, Trimmed f0 name ∧ Trimmed f1 text
         ∧ step resolveMx csv_write r (Data row)
           = advance name (extractEmails text) r).
Proof.
  split.
  - intros H. simpl. unfold input_row.
    destruct (Nat.leb_spec 2 (length row)); [lia | reflexivity].
  - intros f0 f1 more ->. exists (trim f0), (trim f1).
    repeat split; try apply trim_Trimmed.
Qed.

Example short_row_dropped r :
  step foo_mx Csv.write r (Data [js "only alice@foo.com"]) = r.
Proof. reflexivity. Qed.

(** C9: a string returned by the extractor holds exactly one ['@'], so
    [email.split("@")[1]] in [validateEmail] is a string, and not an empty
    one: the promise is never rejected and its [await] never throws. *)
Theorem C9_candidate_domain_defined (text m : jsstring) :
  m ∈ extractEmails text →
  count_at m = 1
  ∧ ∃ d, split at_sign m !! 1 = Some d ∧ d ≠ []
      ∧ (validateEmail m).2 ≠ Rejected
      ∧ ∀ resolveMx, is_Some (await resolveMx (validateEmail m).2).
Proof.
  intros Hm. apply extracted_are_candidates in Hm.
  destruct (email_shape_split m Hm) as (local & d & Hs & Hne & _ & Hc).
  split; [exact Hc|]. exists d. unfold validateEmail. rewrite Hs. simpl.
  repeat split; [exact Hne | |];
    destruct (bool_decide (d ∈ BLACKLISTED_DOMAINS)); simpl; eauto; discriminate.
Qed.

Lemma C9_witness :
  count_at (js "alice@foo.com") = 1
  ∧ ∃ d, split at_sign (js "alice@foo.com") !! 1 = Some d ∧ d ≠ []
      ∧ (validateEmail (js "alice@foo.com")).2 ≠ Rejected
      ∧ ∀ resolveMx, is_Some (await resolveMx (validateEmail (js "alice@foo.com")).2).
Proof.
  apply (C9_candidate_domain_defined (js "contact alice@foo.com")).
  vm_compute. left.
Defined.

(** *** The end of a run *)

Lemma step_in_progress resolveMx csv_write r ev :
  in_progress ev = true →
  files (step resolveMx csv_write r ev) = files r
  ∧ settled (step resolveMx csv_write r ev) = settled r.
Proof.
  destruct ev as [row|k| |]; try discriminate; intros _; simpl.
  - destruct (input_row row) as [[name url]|]; [|tauto].
    destruct (advance_keeps name (extractEmails url) r) as (_ & _ & -> & -> & _).
    tauto.
  - destruct (suspended r !! k) as [t|]; [|tauto]. unfold resume.
    destruct (await resolveMx (task_promise t)) as [v|]; [|tauto].
    destruct (ToBoolean v);
      match goal with |- context [advance ?n ?cs ?r0] =>
        destruct (advance_keeps n cs r0) as (_ & _ & -> & -> & _)
      end; tauto.
Qed.

Lemma run_in_progress resolveMx csv_write r evs :
  forallb in_progress evs = true →
  files (fold_left (step resolveMx csv_write) evs r) = files r
  ∧ settled (fold_left (step resolveMx csv_write) evs r) = settled r.
Proof.
  revert r. induction evs as [|ev evs IH]; intros r; simpl; [tauto|].
  intros H. apply andb_true_iff in H as [Hev Hevs].
  destruct (IH (step resolveMx csv_write r ev) Hevs) as [-> ->].
  apply step_in_progress, Hev.
Qed.

Lemma settlements_in_progress evs :
  forallb is_settlement evs = true → forallb in_progress evs = true.
Proof.
  rewrite !forallb_forall. intros H ev Hev. specialize (H ev Hev).
  destruct ev; try discriminate; reflexivity.
Qed.

(** At the end of the rows the handler hands the writer the header row and
    then one row for each entry collected so far, in their order, and the
    text becomes the content of [uploads/emails.csv] whatever the file held
    before; no other file changes. *)
Lemma end_writes_entries_so_far resolveMx csv_write fs schedule :
  let before := processCSV resolveMx csv_write fs schedule in
  let r := processCSV resolveMx csv_write fs (schedule ++ [End Written]) in
  outputFilePath = js "uploads/emails.csv"
  ∧ files r !! outputFilePath
    = Some (csv_write ([js "Name"; js "Email"]
                       :: List.map (λ e, [e.1; e.2]) (results before)))
  ∧ (∀ p, p ≠ outputFilePath → files r !! p = files before !! p)
  ∧ results r = results before.
Proof.
  intros before r. subst before r. rewrite processCSV_snoc. simpl.
  repeat split.
  - apply lookup_insert_eq.
  - intros p Hp. apply lookup_insert_ne. congruence.
Qed.

(** C6 (not met by the code): the artifact should hold one row for each
    accepted entry.  The ["end"] handler does not wait for the ["data"]
    handlers suspended at their [await]: on the rows of the scenario, the
    rows ending before the lookups are answered, the writer is given the
    header row alone, and the three entries the run accepts afterwards
    never reach the file. *)
Theorem C6_late_entries_not_written csv_write :
  let r := processCSV foo_mx csv_write ∅
             (List.map Data scenario
              ++ [End Written; Settle 0; Settle 0; Settle 0]) in
  results r
  = [ (js "Alice", js "alice@foo.com"); (js "Bob", js "bob@foo.com");
      (js "Bob", js "alice@foo.com") ]
  ∧ suspended r = []
  ∧ faults r = []
  ∧ files r !! outputFilePath = Some (csv_write [[js "Name"; js "Email"]]).
Proof.
  intros r. repeat split; vm_compute; reflexivity.
Qed.

Lemma run_after resolveMx csv_write fs schedule ev later :
  processCSV resolveMx csv_write fs (schedule ++ ev :: later)
  = fold_left (step resolveMx csv_write) later
      (step resolveMx csv_write (processCSV resolveMx csv_write fs schedule) ev).
Proof. unfold processCSV. rewrite fold_left_app. reflexivity. Qed.

(** The run is resolved at the end of the rows whatever becomes of the
    write: the caller gets the path and the entries. *)
Lemma write_result_not_awaited resolveMx csv_write fs schedule later w :
  forallb in_progress schedule = true →
  forallb is_settlement later = true →
  let r := processCSV resolveMx csv_write fs (schedule ++ End w :: later) in
  upload_reply r = Some (Json 200 (UploadBody outputFilePath (results r))).
Proof.
  intros Hs Hl r. subst r. apply settlements_in_progress in Hl.
  destruct (run_in_progress resolveMx csv_write (start fs) schedule Hs) as [_ Hv0].
  fold (processCSV resolveMx csv_write fs schedule) in Hv0.
  rewrite run_after. unfold upload_reply.
  destruct (run_in_progress resolveMx csv_write
    (step resolveMx csv_write (processCSV resolveMx csv_write fs schedule) (End w))
    later Hl) as [_ ->].
  simpl. rewrite Hv0. reflexivity.
Qed.

(** C7 (amended): an error of the parser, before the rows have ended,
    settles the run as failed: the caller gets the generic failure, which
    carries no entries, and no file has been written or changed. *)
Theorem C7_parse_error_reported resolveMx csv_write fs schedule later :
  forallb in_progress schedule = true →
  forallb is_settlement later = true →
  let r := processCSV resolveMx csv_write fs (schedule ++ Error :: later) in
  upload_reply r = Some (Json 500 (ErrorBody (js "Error processing file")))
  ∧ files r = fs.
Proof.
  intros Hs Hl r. subst r. apply settlements_in_progress in Hl.
  destruct (run_in_progress resolveMx csv_write (start fs) schedule Hs)
    as [Hf0 Hv0].
  fold (processCSV resolveMx csv_write fs schedule) in Hf0, Hv0.
  rewrite run_after. unfold upload_reply.
  destruct (run_in_progress resolveMx csv_write
    (step resolveMx csv_write (processCSV resolveMx csv_write fs schedule) Error)
    later Hl) as [-> ->].
  simpl. rewrite Hv0, Hf0. split; reflexivity.
Qed.

Lemma C7_witness :
  let r := processCSV foo_mx Csv.write ∅
             ([Data [js "Alice"; js "contact alice@foo.com"]; Settle 0]
              ++ Error :: []) in
  upload_reply r = Some (Json 500 (ErrorBody (js "Error processing file")))
  ∧ files r = ∅.
Proof.
  apply (C7_parse_error_reported foo_mx Csv.write ∅
           [Data [js "Alice"; js "contact alice@foo.com"]; Settle 0] []);
    reflexivity.
Defined.

(** C7 as stated fails: the write stream cannot open the artifact, and the
    caller still gets status 200 with the path and the entries. *)
Lemma C7_write_failure_not_reported :
  let r := processCSV foo_mx Csv.write ∅ (in_turn scenario OpenFailed) in
  faults r = [UncaughtStreamError]
  ∧ files r !! outputFilePath = None
  ∧ upload_reply r ≠ Some processing_failure
  ∧ upload_reply r
    = Some (Json 200 (UploadBody (js "uploads/emails.csv")
        [ (js "Alice", js "alice@foo.com"); (js "Bob", js "bob@foo.com");
          (js "Bob", js "alice@foo.com") ])).
Proof.
  intros r.
  assert (E : upload_reply r
    = Some (Json 200 (UploadBody (js "uploads/emails.csv")
        [ (js "Alice", js "alice@foo.com"); (js "Bob", js "bob@foo.com");
          (js "Bob", js "alice@foo.com") ]))) by (vm_compute; reflexivity).
  split; [vm_compute; reflexivity|]. split; [vm_compute; reflexivity|].
  split; [rewrite E; discriminate | exact E].
Qed.

(** *** The download route *)

(** C10 (amended): the route hands to [res.download] any path of the query
    that exists in the file system, whether or not a run produced it, and
    answers 404 "File not found" exactly when no existing path was given. *)
Theorem C10_download_any_existing_path (fs : gmap jsstring jsstring)
    (file : option jsstring) :
  (∀ p content, file = Some p → fs !! p = Some content →
     download fs file = Download (Some p))
  ∧ (download fs file = Send 404 (js "File not found")
     ↔ ¬ ∃ p, file = Some p ∧ is_Some (fs !! p)).
Proof.
  unfold download, existsSync. split.
  - intros p content -> Hp. rewrite bool_decide_eq_true_2; [reflexivity | eauto].
  - destruct file as [p|].
    + destruct (bool_decide_reflect (is_Some (fs !! p))) as [Hp|Hp].
      * split; [discriminate|]. intros H. destruct H. eauto.
      * split; [|reflexivity]. intros _ (q & [= <-] & Hq). contradiction.
    + split; [|reflexivity]. intros _ (q & Hq & _). discriminate.
Qed.

(** C10 as stated fails: a file whose name begins with a full stop exists,
    the route hands its path to [res.download], and the client gets
    Express's 404 instead of the contents. *)
Lemma C10_dot_path_not_served :
  let fs : gmap jsstring jsstring := {[ js "uploads/.env" := js "KEY=1" ]} in
  let file := Some (js "uploads/.env") in
  fs !! js "uploads/.env" = Some (js "KEY=1")
  ∧ download fs file = Download file
  ∧ deliver (js "/srv/app") fs (download fs file) = ErrorPage 404
  ∧ deliver (js "/srv/app") fs (download fs file) ≠ FileSent (js "KEY=1").
Proof.
  intros fs file.
  assert (E : deliver (js "/srv/app") fs (download fs file) = ErrorPage 404)
    by (vm_compute; reflexivity).
  split; [vm_compute; reflexivity|]. split; [vm_compute; reflexivity|].
  split; [exact E | rewrite E; discriminate].
Qed.

Example download_plain_path_served :
  deliver (js "/srv/app") {[ js "uploads/emails.csv" := js "Name,Email" ]}
    (download {[ js "uploads/emails.csv" := js "Name,Email" ]}
       (Some (js "uploads/emails.csv")))
  = FileSent (js "Name,Email").
Proof. vm_compute. reflexivity. Qed.

Example download_outside_uploads :
  download {[ js "/etc/passwd" := js "root:x:0:0" ]} (Some (js "/etc/passwd"))
  = Download (Some (js "/etc/passwd")).
Proof. vm_compute. reflexivity. Qed.

Example upload_without_file r :
  upload None r = Some (Json 400 (ErrorBody (js "No file uploaded"))).
Proof. reflexivity. Qed.

Example artifact_of_scenario :
  files (processCSV foo_mx Csv.write ∅ (in_turn scenario Written)) !! outputFilePath
  = Some (js "Name,Email" ++ [Csv.line_feed] ++ js "Alice,alice@foo.com"
          ++ [Csv.line_feed] ++ js "Bob,bob@foo.com"
          ++ [Csv.line_feed] ++ js "Bob,alice@foo.com").
Proof. vm_compute. reflexivity. Qed.

(** When the rows end before the lookups are answered, the artifact holds
    the header alone. *)
Example artifact_before_lookups :
  files (processCSV foo_mx Csv.write ∅
           (List.map Data scenario ++ [End Written; Settle 0; Settle 0]))
    !! outputFilePath
  = Some (js "Name,Email").
Proof. vm_compute. reflexivity. Qed.

(** ** Further properties of the run *)

Lemma resume_results_grow resolveMx t r :
  ∃ added, results (resume resolveMx t r) = results r ++ added.
Proof.
  unfold resume. destruct (await resolveMx (task_promise t)) as [v|].
  - destruct (ToBoolean v);
      match goal with |- context [advance ?n ?cs ?r0] =>
        destruct (advance_keeps n cs r0) as (_ & -> & _)
      end; simpl.
    + eauto.
    + exists []. rewrite app_nil_r. reflexivity.
  - exists []. simpl. rewrite app_nil_r. reflexivity.
Qed.

Lemma step_results_grow resolveMx csv_write r ev :
  ∃ added, results (step resolveMx csv_write r ev) = results r ++ added.
Proof.
  destruct ev as [row|k|w|]; simpl;
    try (exists []; rewrite app_nil_r; reflexivity).
  - destruct (input_row row) as [[name url]|].
    + destruct (advance_keeps name (extractEmails url) r) as (_ & -> & _).
      exists []. rewrite app_nil_r. reflexivity.
    + exists []. rewrite app_nil_r. reflexivity.
  - destruct (suspended r !! k) as [t|].
    + apply (resume_results_grow resolveMx t
        {| emails := emails r; results := results r;
           suspended := delete k (suspended r); lookups := lookups r;
           files := files r; settled := settled r; faults := faults r |}).
    + exists []. rewrite app_nil_r. reflexivity.
Qed.

(** X2: the entries of a run are only ever appended to: what has been collected
    stays, in its place, whatever events follow. *)
Theorem results_only_grow resolveMx csv_write fs schedule more :
  results (processCSV resolveMx csv_write fs schedule)
  `prefix_of` results (processCSV resolveMx csv_write fs (schedule ++ more)).
Proof.
  induction more as [|ev more IH] using rev_ind.
  - rewrite app_nil_r. reflexivity.
  - rewrite app_assoc, processCSV_snoc.
    destruct (step_results_grow resolveMx csv_write
      (processCSV resolveMx csv_write fs (schedule ++ more)) ev) as [added ->].
    etransitivity; [exact IH|]. apply prefix_app_r. reflexivity.
Qed.

Lemma advance_emails name cs r :
  emails r = list_to_set (List.map snd (results r)) →
  emails (advance name cs r)
  = list_to_set (List.map snd (results (advance name cs r))).
Proof.
  destruct (advance_keeps name cs r) as (-> & -> & _). auto.
Qed.

Lemma step_emails resolveMx csv_write r ev :
  emails r = list_to_set (List.map snd (results r)) →
  emails (step resolveMx csv_write r ev)
  = list_to_set (List.map snd (results (step resolveMx csv_write r ev))).
Proof.
  intros H. destruct ev as [row|k|w|]; simpl; try exact H.
  - destruct (input_row row) as [[name url]|]; [|exact H].
    apply advance_emails, H.
  - destruct (suspended r !! k) as [t|]; [|exact H]. unfold resume.
    destruct (await resolveMx (task_promise t)) as [v|]; [|exact H].
    destruct (ToBoolean v); apply advance_emails; simpl; [|exact H].
    rewrite H, map_app, list_to_set_app_L. unfold Set_add. simpl.
    rewrite union_empty_r_L. apply (comm_L (∪)).
Qed.

(** X3: the set [emails] holds, at every moment, exactly the e-mails of the
    entries collected. *)
Theorem emails_mirror_results resolveMx csv_write fs schedule :
  emails (processCSV resolveMx csv_write fs schedule)
  = list_to_set (List.map snd (results (processCSV resolveMx csv_write fs schedule))).
Proof.
  induction schedule as [|ev schedule IH] using rev_ind; [reflexivity|].
  rewrite processCSV_snoc. apply step_emails, IH.
Qed.

Lemma step_faults resolveMx csv_write r ev :
  run_ok r →
  faults (step resolveMx csv_write r ev) = faults r ++ fault_of ev.
Proof.
  intros [_ Hs]. destruct ev as [row|k|w|]; simpl; rewrite ?app_nil_r;
    try reflexivity.
  - destruct (input_row row) as [[name url]|]; [|reflexivity].
    destruct (advance_keeps name (extractEmails url) r) as (_ & _ & _ & _ & ->).
    reflexivity.
  - destruct (suspended r !! k) as [t|] eqn:E; [|reflexivity].
    rewrite Forall_lookup in Hs. destruct (Hs k t E) as (_ & He & _ & Hp).
    unfold resume. rewrite Hp.
    destruct (accepts_candidate resolveMx _ He) as (v & -> & _).
    destruct (ToBoolean v);
      match goal with |- context [advance ?n ?cs ?r0] =>
        destruct (advance_keeps n cs r0) as (_ & _ & _ & _ & ->)
      end; reflexivity.
Qed.

(** X4: the only faults of a run are the failures of its writes: no handler of
    a row ever throws, whatever the rows hold and however the lookups end. *)
Theorem faults_are_write_failures resolveMx csv_write fs schedule :
  faults (processCSV resolveMx csv_write fs schedule) = schedule ≫= fault_of.
Proof.
  induction schedule as [|ev schedule IH] using rev_ind; [reflexivity|].
  rewrite processCSV_snoc, step_faults by apply processCSV_ok.
  rewrite IH, bind_app. simpl. rewrite app_nil_r. reflexivity.
Qed.

Lemma step_settled resolveMx csv_write r ev s :
  settled r = Some s → settled (step resolveMx csv_write r ev) = Some s.
Proof.
  intros H. destruct ev as [row|k|w|].
  - rewrite (proj2 (step_in_progress resolveMx csv_write r (Data row) eq_refl)).
    exact H.
  - rewrite (proj2 (step_in_progress resolveMx csv_write r (Settle k) eq_refl)).
    exact H.
  - simpl. rewrite H. reflexivity.
  - simpl. rewrite H. reflexivity.
Qed.

Lemma run_settled resolveMx csv_write r evs s :
  settled r = Some s →
  settled (fold_left (step resolveMx csv_write) evs r) = Some s.
Proof.
  revert r. induction evs as [|ev evs IH]; intros r H; simpl; [exact H|].
  apply IH, step_settled, H.
Qed.

(** X5: no answer is made while rows and lookups are all that has happened, and
    the first end or error of the rows decides the answer for good: neither
    a later error nor a later end changes how the run was settled. *)
Theorem first_end_or_error_decides resolveMx csv_write fs schedule :
  forallb in_progress schedule = true →
  upload_reply (processCSV resolveMx csv_write fs schedule) = None
  ∧ (∀ w more,
       settled (processCSV resolveMx csv_write fs (schedule ++ End w :: more))
       = Some (Resolved outputFilePath))
  ∧ (∀ more,
       settled (processCSV resolveMx csv_write fs (schedule ++ Error :: more))
       = Some Failed).
Proof.
  intros Hs.
  destruct (run_in_progress resolveMx csv_write (start fs) schedule Hs) as [_ Hv].
  fold (processCSV resolveMx csv_write fs schedule) in Hv. simpl in Hv.
  split; [unfold upload_reply; rewrite Hv; reflexivity|].
  split; intros; rewrite run_after; apply run_settled; simpl; rewrite Hv;
    reflexivity.
Qed.

Lemma first_end_or_error_decides_witness :
  upload_reply (processCSV foo_mx Csv.write ∅ (List.map Data scenario)) = None
  ∧ (∀ w more,
       settled (processCSV foo_mx Csv.write ∅
                  (List.map Data scenario ++ End w :: more))
       = Some (Resolved outputFilePath))
  ∧ (∀ more,
       settled (processCSV foo_mx Csv.write ∅
                  (List.map Data scenario ++ Error :: more))
       = Some Failed).
Proof.
  apply (first_end_or_error_decides foo_mx Csv.write ∅ (List.map Data scenario)).
  reflexivity.
Defined.

(** X1: once no handler is waiting, the entries are, each as often as it was
    met, the pairs of the rows delivered whose validation came out truthy:
    nothing is lost, nothing is added, and nothing is left out for having
    been collected before. *)
Theorem collected_when_quiet resolveMx csv_write fs schedule :
  suspended (processCSV resolveMx csv_write fs schedule) = [] →
  results (processCSV resolveMx csv_write fs schedule)
  ≡ₚ filter (λ e, accepts resolveMx e.2 = true) (delivered schedule).
Proof.
  intros Hq. pose proof (run_accounts resolveMx csv_write fs schedule) as H.
  cbv zeta in H. rewrite Hq in H. simpl in H. rewrite kept_nil, app_nil_r in H.
  exact H.
Qed.

Lemma collected_when_quiet_witness :
  results (processCSV foo_mx Csv.write ∅ (in_turn scenario Written))
  ≡ₚ filter (λ e, accepts foo_mx e.2 = true) (delivered (in_turn scenario Written)).
Proof.
  apply (collected_when_quiet foo_mx Csv.write ∅ (in_turn scenario Written)).
  vm_compute. reflexivity.
Defined.

(** *** The lookups of a run *)

Lemma asks_lookup_of email : email_shape email → asks email = lookup_of email.
Proof.
  intros H. unfold asks, lookup_of, validateEmail.
  destruct (email_shape_split email H) as (local & d & -> & _ & -> & _).
  simpl. destruct (bool_decide (d ∈ BLACKLISTED_DOMAINS)); reflexivity.
Qed.

Lemma delivered_candidates schedule e :
  e ∈ delivered schedule → email_shape e.2.
Proof.
  unfold delivered. rewrite list_elem_of_bind. intros (ev & He & _).
  destruct ev as [row| | |]; try (apply elem_of_nil in He; contradiction).
  unfold row_pairs in He. destruct (input_row row) as [[name url]|];
    [|apply elem_of_nil in He; contradiction].
  apply list_elem_of_fmap in He as (m & -> & Hm).
  apply (extracted_are_candidates url m Hm).
Qed.

Lemma pairs_ask name cs :
  List.map (pair name) cs ≫= (λ e : jsstring * jsstring, asks e.2) = cs ≫= asks.
Proof.
  induction cs as [|c cs IH]; [reflexivity|].
  change (List.map (pair name) (c :: cs))
    with ((name, c) :: List.map (pair name) cs).
  rewrite !bind_cons, IH. reflexivity.
Qed.

Lemma bind_nil {A B} (f : A → list B) : [] ≫= f = [].
Proof. reflexivity. Qed.

Lemma advance_candidate name email rest r :
  email_shape email →
  advance name (email :: rest) r
  = {| emails := emails r; results := results r;
       suspended := suspended r ++
         [{| task_name := name; task_email := email;
             task_promise := (validateEmail email).2; task_rest := rest |}];
       lookups := lookups r ++ asks email;
       files := files r; settled := settled r; faults := faults r |}.
Proof.
  intros He. simpl. rewrite (js_in_candidate _ _ He). unfold asks.
  destruct (validateEmail email). reflexivity.
Qed.

Lemma advance_lookups name cs r :
  Forall email_shape cs →
  lookups (advance name cs r) ++ (suspended (advance name cs r) ≫= owed)
  ≡ₚ (lookups r ++ (suspended r ≫= owed)) ++ (cs ≫= asks).
Proof.
  intros Hcs. destruct cs as [|email rest].
  - simpl. rewrite app_nil_r. reflexivity.
  - inversion Hcs; subst. rewrite advance_candidate by assumption.
    cbn [lookups suspended]. rewrite bind_app, !bind_cons, bind_nil, app_nil_r.
    change (owed _) with (rest ≫= asks).
    rewrite <- !app_assoc. f_equiv. rewrite !app_assoc. f_equiv.
    apply Permutation_app_comm.
Qed.

Lemma resume_lookups resolveMx t r :
  task_ok t →
  lookups (resume resolveMx t r) ++ (suspended (resume resolveMx t r) ≫= owed)
  ≡ₚ (lookups r ++ (suspended r ≫= owed)) ++ owed t.
Proof.
  intros (_ & He & Hrest & Hp). unfold resume. rewrite Hp.
  destruct (accepts_candidate resolveMx _ He) as (v & -> & _).
  destruct (ToBoolean v); rewrite advance_lookups by exact Hrest; reflexivity.
Qed.

Lemma step_lookups resolveMx csv_write r ev :
  run_ok r →
  lookups (step resolveMx csv_write r ev)
    ++ (suspended (step resolveMx csv_write r ev) ≫= owed)
  ≡ₚ (lookups r ++ (suspended r ≫= owed))
     ++ (delivered [ev] ≫= λ e, asks e.2).
Proof.
  intros [_ Hs]. unfold delivered. rewrite bind_cons, bind_nil, app_nil_r.
  destruct ev as [row|k|w|]; simpl; rewrite ?app_nil_r; try reflexivity.
  - unfold row_pairs. destruct (input_row row) as [[name url]|];
      [|simpl; rewrite app_nil_r; reflexivity].
    rewrite pairs_ask. apply advance_lookups.
    rewrite Forall_forall. intros m. apply extracted_are_candidates.
  - destruct (suspended r !! k) as [t|] eqn:E; [|reflexivity].
    rewrite resume_lookups by (rewrite Forall_lookup in Hs; eapply Hs, E).
    simpl. rewrite <- app_assoc. f_equiv.
    rewrite (delete_Permutation _ _ _ E) at 2. rewrite bind_cons.
    apply Permutation_app_comm.
Qed.

(** The names looked up so far, with those the suspended handlers have yet
    to ask for, are the ones the candidates delivered call for. *)
Lemma run_lookups resolveMx csv_write fs schedule :
  let r := processCSV resolveMx csv_write fs schedule in
  lookups r ++ (suspended r ≫= owed)
  ≡ₚ delivered schedule ≫= λ e, lookup_of e.2.
Proof.
  induction schedule as [|ev schedule IH] using rev_ind; [reflexivity|].
  cbv zeta in *. rewrite processCSV_snoc.
  rewrite step_lookups by apply processCSV_ok. rewrite IH.
  unfold delivered at 3. rewrite bind_app. fold (delivered schedule).
  fold (delivered [ev]). rewrite bind_app. f_equiv.
  assert (Hev : ∀ e, e ∈ delivered [ev] → asks e.2 = lookup_of e.2).
  { intros e He. apply asks_lookup_of, (delivered_candidates [ev] e He). }
  induction (delivered [ev]) as [|e l IHl]; [reflexivity|].
  rewrite !bind_cons, Hev by (left). rewrite IHl; [reflexivity|].
  intros e' He'. apply Hev. right. exact He'.
Qed.

(** X6: once no handler is waiting, the MX lookups made are, each as often as
    its candidate was met, the domains of the candidates delivered that are
    not on the blacklist: a domain met again is looked up again. *)
Theorem one_lookup_per_candidate resolveMx csv_write fs schedule :
  suspended (processCSV resolveMx csv_write fs schedule) = [] →
  lookups (processCSV resolveMx csv_write fs schedule)
  ≡ₚ delivered schedule ≫= λ e, lookup_of e.2.
Proof.
  intros Hq. pose proof (run_lookups resolveMx csv_write fs schedule) as H.
  cbv zeta in H. rewrite Hq in H. simpl in H. rewrite app_nil_r in H. exact H.
Qed.

Lemma one_lookup_per_candidate_witness :
  lookups (processCSV foo_mx Csv.write ∅ (in_turn scenario Written))
  ≡ₚ delivered (in_turn scenario Written) ≫= λ e, lookup_of e.2.
Proof.
  apply (one_lookup_per_candidate foo_mx Csv.write ∅ (in_turn scenario Written)).
  vm_compute. reflexivity.
Defined.

(** X7: no name is ever looked up that is on the blacklist, and every name
    looked up is what follows the first ['@'] of a candidate of a row that
    was delivered. *)
Theorem lookups_are_candidate_domains resolveMx csv_write fs schedule d :
  d ∈ lookups (processCSV resolveMx csv_write fs schedule) →
  (d ∉ BLACKLISTED_DOMAINS)
  ∧ ∃ name email, (name, email) ∈ delivered schedule
      ∧ after_first_at email = Some d.
Proof.
  intros Hd. pose proof (run_lookups resolveMx csv_write fs schedule) as H.
  cbv zeta in H.
  assert (Hin : d ∈ delivered schedule ≫= λ e, lookup_of e.2).
  { rewrite <- H. apply elem_of_app. left. exact Hd. }
  apply list_elem_of_bind in Hin as ([name email] & Hl & He). simpl in Hl.
  unfold lookup_of in Hl. destruct (after_first_at email) as [d'|] eqn:Ed;
    [|apply elem_of_nil in Hl; contradiction].
  destruct (bool_decide_reflect (d' ∈ BLACKLISTED_DOMAINS)) as [Hb|Hb];
    [apply elem_of_nil in Hl; contradiction|].
  apply list_elem_of_singleton in Hl as ->. split; [exact Hb|].
  exists name, email. split; assumption.
Qed.

Lemma lookups_are_candidate_domains_witness :
  (js "foo.com" ∉ BLACKLISTED_DOMAINS)
  ∧ ∃ name email, (name, email) ∈ delivered (in_turn scenario Written)
      ∧ after_first_at email = Some (js "foo.com").
Proof.
  apply (lookups_are_candidate_domains foo_mx Csv.write ∅
           (in_turn scenario Written) (js "foo.com")).
  vm_compute. left.
Defined.

(** *** The artifact after the end of the rows *)

(** X8: the artifact holds the entries collected when the rows ended: rows and
    lookups that come afterwards may add entries to the run, never to the
    file. *)
Theorem artifact_is_not_rewritten resolveMx csv_write fs schedule later :
  forallb in_progress later = true →
  files (processCSV resolveMx csv_write fs (schedule ++ End Written :: later))
    !! outputFilePath
  = Some (csv_write (header :: List.map entry_row
            (results (processCSV resolveMx csv_write fs schedule)))).
Proof.
  intros Hl. rewrite run_after.
  rewrite (proj1 (run_in_progress resolveMx csv_write _ later Hl)).
  simpl. apply lookup_insert_eq.
Qed.

Lemma artifact_is_not_rewritten_witness :
  files (processCSV foo_mx Csv.write ∅
           (List.map Data scenario ++ End Written :: [Settle 0; Settle 0; Settle 0]))
    !! outputFilePath
  = Some (Csv.write (header :: List.map entry_row
            (results (processCSV foo_mx Csv.write ∅ (List.map Data scenario))))).
Proof.
  apply (artifact_is_not_rewritten foo_mx Csv.write ∅ (List.map Data scenario)
           [Settle 0; Settle 0; Settle 0]).
  reflexivity.
Defined.

(** X9: the path a successful upload answers with is one the download
    route hands to [res.download]: the answer, made when the rows end with
    the write going through, carries [uploads/emails.csv] and the entries
    collected by then, and from then on, whatever rows and lookups follow,
    the route finds the file. *)
Theorem uploaded_path_is_found resolveMx csv_write fs schedule path :
  forallb in_progress schedule = true →
  let r := processCSV resolveMx csv_write fs (schedule ++ [End Written]) in
  upload (Some path) r
  = Some (Json 200 (UploadBody outputFilePath (results r)))
  ∧ ∀ later, forallb in_progress later = true →
      download
        (files (processCSV resolveMx csv_write fs
                  (schedule ++ End Written :: later)))
        (Some outputFilePath)
      = Download (Some outputFilePath).
Proof.
  intros Hs r. subst r.
  destruct (run_in_progress resolveMx csv_write (start fs) schedule Hs) as [_ Hv0].
  fold (processCSV resolveMx csv_write fs schedule) in Hv0. simpl in Hv0.
  split.
  - rewrite processCSV_snoc. unfold upload, upload_reply. simpl.
    rewrite Hv0. reflexivity.
  - intros later Hl. rewrite run_after. unfold download, existsSync.
    rewrite (proj1 (run_in_progress resolveMx csv_write _ later Hl)). simpl.
    rewrite lookup_insert_eq. reflexivity.
Qed.

Lemma uploaded_path_is_found_witness :
  let r := processCSV foo_mx Csv.write ∅
             ([Data [js "Alice"; js "contact alice@foo.com"]; Settle 0]
              ++ [End Written]) in
  upload (Some (js "upload.csv")) r
  = Some (Json 200 (UploadBody outputFilePath (results r)))
  ∧ ∀ later, forallb in_progress later = true →
      download
        (files (processCSV foo_mx Csv.write ∅
                  ([Data [js "Alice"; js "contact alice@foo.com"]; Settle 0]
                   ++ End Written :: later)))
        (Some outputFilePath)
      = Download (Some outputFilePath).
Proof.
  apply (uploaded_path_is_found foo_mx Csv.write ∅
           [Data [js "Alice"; js "contact alice@foo.com"]; Settle 0]
           (js "upload.csv")).
  reflexivity.
Defined.

(** ** Further properties of the extractor and of the validator *)

Lemma repeat_class_cut c l h w x b k k' :
  c x = false → (∀ w', k (w' ++ x :: b) = k' w') →
  repeat_class c l h (w ++ x :: b) k = repeat_class c l h w k'.
Proof.
  intros Hx Hk. revert l h. induction w as [|y w IH]; intros l h; simpl.
  - rewrite Hx. simpl. destruct l; [apply (Hk []) | reflexivity].
  - rewrite IH. rewrite <- (Hk (y :: w)). reflexivity.
Qed.

Lemma match_here_cut p w x b :
  Forall (λ t, class t x = false) p →
  match_here p (w ++ x :: b) = match_here p w.
Proof.
  intros Hp. revert w. induction Hp as [|t p Ht _ IH]; intros w; [reflexivity|].
  simpl. apply repeat_class_cut; [exact Ht | exact IH].
Qed.

Lemma emailPattern_rejects x :
  local_char x = false → is_at x = false →
  Forall (λ t, class t x = false) emailPattern.
Proof.
  intros Hl Ha. unfold emailPattern. repeat constructor; simpl; try assumption.
  - destruct (domain_char x) eqn:E; [|reflexivity].
    apply domain_is_local_char in E. congruence.
  - destruct (is_full_stop x) eqn:E; [|reflexivity].
    apply N.eqb_eq in E as ->. discriminate.
  - destruct (is_letter x) eqn:E; [|reflexivity].
    apply letter_is_domain_char, domain_is_local_char in E. congruence.
Qed.

Lemma match_from_cut a x b skip :
  local_char x = false → is_at x = false → skip ≤ length a →
  match_from emailPattern (a ++ x :: b) skip
  = match_from emailPattern a skip ++ match_from emailPattern b 0.
Proof.
  intros Hl Ha. pose proof (emailPattern_rejects x Hl Ha) as Hp.
  revert skip. induction a as [|c a IH]; intros skip Hskip.
  - simpl in Hskip. assert (skip = 0) as -> by lia.
    change ([] ++ x :: b) with (x :: b). rewrite match_from_cons.
    pose proof (match_here_cut emailPattern [] x b Hp) as E.
    change ([] ++ x :: b) with (x :: b) in E. rewrite E. reflexivity.
  - destruct skip as [|skip].
    + change ((c :: a) ++ x :: b) with (c :: a ++ x :: b).
      rewrite !match_from_cons.
      change (c :: a ++ x :: b) with ((c :: a) ++ x :: b).
      rewrite (match_here_cut emailPattern (c :: a) x b Hp).
      destruct (match_here emailPattern (c :: a)) as [n|] eqn:E.
      * apply match_here_sound in E as [Hn _]. simpl in Hn.
        rewrite IH by lia. rewrite firstn_app.
        replace (n - length (c :: a)) with 0 by (simpl; lia).
        simpl firstn at 2. rewrite app_nil_r. reflexivity.
      * apply IH. lia.
    + simpl in Hskip. simpl. apply IH. lia.
Qed.

(** X10: a code unit that is neither of the local part's class nor ['@'] (a
    space, a comma, a line end, an angle bracket) cuts the text in two for
    the extractor: the candidates of the whole are those of what precedes,
    then those of what follows. *)
Theorem extractEmails_cut (a b : jsstring) (x : code_unit) :
  local_char x = false → is_at x = false →
  extractEmails (a ++ x :: b) = extractEmails a ++ extractEmails b.
Proof.
  intros Hl Ha. rewrite !extractEmails_match_from.
  apply match_from_cut; [exact Hl | exact Ha | lia].
Qed.

Lemma extractEmails_cut_witness :
  extractEmails (js "bob@foo.com" ++ 32%N :: js "and alice@foo.com again")
  = extractEmails (js "bob@foo.com") ++ extractEmails (js "and alice@foo.com again").
Proof.
  apply (extractEmails_cut (js "bob@foo.com") (js "and alice@foo.com again") 32%N);
    reflexivity.
Defined.

(** X11: every candidate has six code units or more, and each of them is a
    letter, a digit or one of [._%+-@]: none is white space, a comma, a
    quote or an angle bracket. *)
Theorem candidates_are_plain (text : jsstring) :
  Forall (λ m, 6 ≤ length m ∧ forallb (λ c, local_char c || is_at c) m = true)
    (extractEmails text).
Proof.
  rewrite Forall_forall. intros m Hm. apply extracted_are_candidates in Hm.
  destruct Hm as (local & dom & tld & -> & Hl & Hlc & Hd & Hdc & Ht & Htc).
  split.
  - destruct local; [congruence|]. destruct dom; [congruence|].
    simpl. rewrite length_app. simpl. rewrite length_app. simpl. lia.
  - rewrite forallb_app. simpl. rewrite forallb_app. simpl.
    rewrite !andb_true_iff. repeat split.
    + rewrite forallb_forall in *. intros c Hc. rewrite (Hlc c Hc). reflexivity.
    + rewrite forallb_forall in *. intros c Hc.
      rewrite (domain_is_local_char c (Hdc c Hc)). reflexivity.
    + rewrite forallb_forall in *. intros c Hc.
      rewrite (domain_is_local_char c (letter_is_domain_char c (Htc c Hc))).
      reflexivity.
Qed.

(** X12: for a string without ['@'], [validateEmail] makes no lookup and its
    promise is rejected, so that awaiting it throws: the domain is
    [undefined], which [dns.resolveMx] refuses. *)
Theorem validateEmail_without_at resolveMx (email : jsstring) :
  no_at email →
  validateEmail email = ([], Rejected)
  ∧ await resolveMx (validateEmail email).2 = None.
Proof.
  intros H. unfold validateEmail. rewrite (split_no_at email H). split; reflexivity.
Qed.

Lemma validateEmail_without_at_witness :
  validateEmail (js "nobody") = ([], Rejected)
  ∧ await foo_mx (validateEmail (js "nobody")).2 = None.
Proof.
  apply (validateEmail_without_at foo_mx (js "nobody")). reflexivity.
Defined.

(** X13: the domain [validateEmail] judges is what stands between the first
    ['@'] and the second: what follows a second ['@'] has no part in the
    verdict. *)
Theorem validateEmail_ignores_second_at (a d rest : jsstring) :
  no_at a → no_at d →
  validateEmail (a ++ at_sign :: d ++ at_sign :: rest)
  = validateEmail (a ++ at_sign :: d).
Proof.
  intros Ha Hd. unfold validateEmail.
  rewrite !(split_at_first _ _ Ha), (split_at_first _ _ Hd), (split_no_at _ Hd).
  reflexivity.
Qed.

Lemma validateEmail_ignores_second_at_witness :
  validateEmail (js "x" ++ at_sign :: js "sentry.io" ++ at_sign :: js "foo.com")
  = validateEmail (js "x" ++ at_sign :: js "sentry.io").
Proof.
  apply (validateEmail_ignores_second_at (js "x") (js "sentry.io") (js "foo.com"));
    reflexivity.
Defined.

(** ** The names of the uploaded files *)

Lemma js_inj s s' : js s = js s' → s = s'.
Proof.
  unfold js. intros H.
  rewrite <- (string_of_list_ascii_of_string s),
          <- (string_of_list_ascii_of_string s').
  f_equal. revert H. generalize (list_ascii_of_string s') as l'.
  induction (list_ascii_of_string s) as [|a l IH]; intros [|a' l'];
    simpl; try discriminate; [reflexivity|].
  intros [= Ha Hl]. f_equal; [|apply IH, Hl].
  rewrite <- (ascii_N_embedding a), <- (ascii_N_embedding a'), Ha. reflexivity.
Qed.

Lemma Number_toString_inj n n' : Number_toString n = Number_toString n' → n = n'.
Proof.
  unfold Number_toString. intros H. apply js_inj in H.
  assert (E : Some (N.to_uint n) = Some (N.to_uint n')).
  { rewrite <- !NilEmpty.usu, H. reflexivity. }
  injection E as E. rewrite <- (Unsigned.of_to n), <- (Unsigned.of_to n'), E.
  reflexivity.
Qed.

Lemma Number_toString_digits n : forallb is_digit (Number_toString n) = true.
Proof.
  unfold Number_toString. generalize (N.to_uint n) as d.
  induction d; simpl; auto.
Qed.

Lemma digits_then_dash (x x' o o' : jsstring) :
  forallb is_digit x = true → forallb is_digit x' = true →
  x ++ 45%N :: o = x' ++ 45%N :: o' → x = x' ∧ o = o'.
Proof.
  revert x'. induction x as [|c x IH]; intros [|c' x'] Hx Hx'; simpl in *.
  - intros [= ->]. split; reflexivity.
  - intros [= <- _]. discriminate.
  - intros [= -> _]. discriminate.
  - apply andb_true_iff in Hx as [_ Hx]. apply andb_true_iff in Hx' as [_ Hx'].
    intros [= -> H]. destruct (IH x' Hx Hx' H) as [-> ->]. split; reflexivity.
Qed.

(** X14: two uploads are stored under the same name only when they come in the
    same millisecond with the same original name: the stored name gives
    back both the time and the original name. *)
Theorem storage_filename_distinct (now now' : N) (name name' : jsstring) :
  now ≠ now' ∨ name ≠ name' →
  storage_filename now name ≠ storage_filename now' name'.
Proof.
  intros Hne H. unfold storage_filename in H.
  apply digits_then_dash in H as [Hn ->]; try apply Number_toString_digits.
  apply Number_toString_inj in Hn as ->. destruct Hne; congruence.
Qed.

Lemma storage_filename_distinct_witness :
  storage_filename 1730534123456 (js "list.csv")
  ≠ storage_filename 1730534123457 (js "list.csv").
Proof.
  apply (storage_filename_distinct 1730534123456 1730534123457
           (js "list.csv") (js "list.csv")).
  left. discriminate.
Defined.

Example storage_filename_example :
  storage_filename 1730534123456 (js "list.csv") = js "1730534123456-list.csv".
Proof. vm_compute. reflexivity. Qed.

(** ** From the entries back to the rows *)

Lemma mx_verdict_truthy a :
  ToBoolean (mx_verdict a) = true →
  mx_err a = None ∧ ∃ l, mx_addresses a = Some l ∧ l ≠ [].
Proof.
  unfold mx_verdict. destruct (mx_err a); [discriminate|].
  destruct (mx_addresses a) as [[|r l]|]; simpl; try discriminate.
  intros _. split; [reflexivity|]. exists (r :: l). split; [reflexivity | discriminate].
Qed.

Lemma accepts_candidate_domain resolveMx email :
  email_shape email → accepts resolveMx email = true →
  ∃ d, after_first_at email = Some d ∧ (d ∉ BLACKLISTED_DOMAINS)
    ∧ ToBoolean (mx_verdict (resolveMx d)) = true.
Proof.
  intros He. unfold accepts, validateEmail.
  destruct (email_shape_split email He) as (local & d & -> & _ & Hd & _).
  simpl. destruct (bool_decide_reflect (d ∈ BLACKLISTED_DOMAINS)) as [Hb|Hb];
    simpl; [discriminate|]. intros Hv. exists d. auto.
Qed.

(** X15: every entry of a run, at every moment, pairs the name of a row that was
    delivered with a candidate of that same row, and the domain of its
    e-mail is off the blacklist and answered the lookup with no error and
    at least one record. *)
Theorem entries_come_from_rows resolveMx csv_write fs schedule e :
  e ∈ results (processCSV resolveMx csv_write fs schedule) →
  e ∈ delivered schedule
  ∧ ∃ d, after_first_at e.2 = Some d ∧ (d ∉ BLACKLISTED_DOMAINS)
      ∧ mx_err (resolveMx d) = None
      ∧ ∃ l, mx_addresses (resolveMx d) = Some l ∧ l ≠ [].
Proof.
  intros He. pose proof (run_accounts resolveMx csv_write fs schedule) as H.
  cbv zeta in H.
  assert (Hin : e ∈ kept resolveMx (delivered schedule)).
  { rewrite <- H. apply elem_of_app. left. exact He. }
  unfold kept in Hin. apply list_elem_of_filter in Hin as [Hacc Hdel].
  split; [exact Hdel|].
  destruct (accepts_candidate_domain resolveMx e.2
              (delivered_candidates schedule e Hdel) Hacc) as (d & Hd & Hb & Hv).
  exists d. destruct (mx_verdict_truthy _ Hv) as [Herr Haddr]. auto.
Qed.

Lemma entries_come_from_rows_witness :
  (js "Bob", js "alice@foo.com") ∈ delivered (in_turn scenario Written)
  ∧ ∃ d, after_first_at (js "Bob", js "alice@foo.com").2 = Some d
      ∧ (d ∉ BLACKLISTED_DOMAINS)
      ∧ mx_err (foo_mx d) = None
      ∧ ∃ l, mx_addresses (foo_mx d) = Some l ∧ l ≠ [].
Proof.
  apply (entries_come_from_rows foo_mx Csv.write ∅ (in_turn scenario Written)
           (js "Bob", js "alice@foo.com")).
  vm_compute. right. right. left.
Defined.

(** *** A candidate is its own only candidate *)

Lemma repeat_class_prefix c l h w r k k' n :
  (∀ w', k (w' ++ r) = None → k' w' = None) →
  (∀ w' m, k (w' ++ r) = Some m → m ≤ length w' → k' w' = Some m) →
  (repeat_class c l h (w ++ r) k = None → repeat_class c l h w k' = None)
  ∧ (repeat_class c l h (w ++ r) k = Some n → n ≤ length w →
     repeat_class c l h w k' = Some n).
Proof.
  intros Hnone Hsome. revert l h n. induction w as [|y w IH]; intros l h n.
  - change ([] ++ r) with r. simpl (repeat_class c l h [] k').
    destruct r as [|x r]; simpl.
    + destruct l; [|split; [reflexivity | discriminate]].
      split; [apply (Hnone []) | intros H Hn; apply (Hsome [] n H Hn)].
    + destruct (c x && may_take h);
        [destruct (repeat_class c (pred l) (taken h) r k)|];
        destruct l; split; try reflexivity; try discriminate;
        try (apply (Hnone [])); try (intros H Hn; apply (Hsome [] n H Hn)).
      all: intros [= <-] Hn; simpl in Hn; lia.
  - simpl. destruct (c y && may_take h).
    + destruct (repeat_class c (pred l) (taken h) (w ++ r) k) as [n'|] eqn:E.
      * split; [discriminate|]. intros [= <-] Hn.
        rewrite (proj2 (IH (pred l) (taken h) n') E) by lia. reflexivity.
      * rewrite (proj1 (IH (pred l) (taken h) 0) E).
        destruct l; [|split; [reflexivity | discriminate]].
        split; [apply (Hnone (y :: w)) | intros H Hn; apply (Hsome (y :: w) n H Hn)].
    + destruct l; [|split; [reflexivity | discriminate]].
      split; [apply (Hnone (y :: w)) | intros H Hn; apply (Hsome (y :: w) n H Hn)].
Qed.

(** A match that ends within a prefix of the text is the match of the
    prefix alone. *)
Lemma match_here_prefix p w r :
  (match_here p (w ++ r) = None → match_here p w = None)
  ∧ (∀ n, match_here p (w ++ r) = Some n → n ≤ length w →
       match_here p w = Some n).
Proof.
  revert w. induction p as [|t p IH]; intros w; simpl.
  - split; [discriminate | auto].
  - split.
    + apply (proj1 (repeat_class_prefix _ _ _ w r _ (match_here p) 0
        (λ w', proj1 (IH w')) (λ w' m, proj2 (IH w') m))).
    + intros n. apply (proj2 (repeat_class_prefix _ _ _ w r _ (match_here p) n
        (λ w', proj1 (IH w')) (λ w' m, proj2 (IH w') m))).
Qed.

Lemma match_from_origin p s skip m :
  m ∈ match_from p s skip →
  ∃ r, match_here p (m ++ r) = Some (length m).
Proof.
  revert skip. induction s as [|c s IH]; intros skip.
  - destruct skip; simpl; [|intros H; apply elem_of_nil in H; contradiction].
    destruct (match_here p []) as [n|] eqn:E;
      [|intros H; apply elem_of_nil in H; contradiction].
    intros H. apply list_elem_of_singleton in H as ->.
    exists []. pose proof (match_here_sound _ _ _ E) as [Hn _]. simpl in Hn.
    assert (n = 0) as -> by lia. exact E.
  - destruct skip as [|skip]; [|simpl; apply IH].
    rewrite match_from_cons.
    destruct (match_here p (c :: s)) as [n|] eqn:E; [|apply IH].
    intros H. apply elem_of_cons in H as [->|H]; [|exact (IH _ H)].
    exists (skipn n (c :: s)). rewrite firstn_skipn, length_firstn.
    apply match_here_sound in E as E'. destruct E' as [Hn _].
    rewrite Nat.min_l by exact Hn. exact E.
Qed.

Lemma match_from_whole m r :
  m ≠ [] → match_here emailPattern (m ++ r) = Some (length m) →
  match_from emailPattern m 0 = [m].
Proof.
  intros Hne Hr.
  pose proof (proj2 (match_here_prefix emailPattern m r) _ Hr (le_n _)) as E.
  destruct m as [|c m]; [congruence|].
  rewrite match_from_cons, E. simpl length. simpl pred.
  change (S (length m)) with (length (c :: m)). rewrite firstn_all.
  pose proof (match_from_skip emailPattern m []) as Hs.
  rewrite app_nil_r in Hs. rewrite Hs. reflexivity.
Qed.

(** X16: extracting from a candidate gives back the candidate and nothing else:
    what the extractor returns, it returns again. *)
Theorem candidate_extracts_itself (text m : jsstring) :
  m ∈ extractEmails text → extractEmails m = [m].
Proof.
  rewrite !extractEmails_match_from. intros Hm.
  destruct (match_from_origin _ _ _ _ Hm) as (r & Hr).
  apply (match_from_whole m r); [|exact Hr].
  intros ->. destruct (match_here_sound _ _ _ Hr) as [_ Hw].
  apply email_shape_matches, email_shape_length in Hw.
  simpl in Hw. lia.
Qed.

Lemma candidate_extracts_itself_witness :
  extractEmails (js "a@b.com") = [js "a@b.com"].
Proof.
  apply (candidate_extracts_itself (js "write to a@b.com-x, please") (js "a@b.com")).
  vm_compute. left.
Defined.


(** *** The artifact as an upload *)

Lemma delivered_origin schedule e :
  e ∈ delivered schedule →
  (∃ field, e.1 = trim field) ∧ ∃ url, e.2 ∈ extractEmails url.
Proof.
  unfold delivered. rewrite list_elem_of_bind. intros (ev & He & _).
  destruct ev as [row| | |]; try (apply elem_of_nil in He; contradiction).
  unfold row_pairs in He. destruct (input_row row) as [[name url]|] eqn:E;
    [|apply elem_of_nil in He; contradiction].
  apply input_row_ok in E as (f0 & f1 & more & _ & -> & ->).
  apply list_elem_of_fmap in He as (m & -> & Hm). simpl. eauto.
Qed.

Lemma row_pairs_entry e :
  (∃ field, e.1 = trim field) → (∃ url, e.2 ∈ extractEmails url) →
  row_pairs (entry_row e) = [e].
Proof.
  destruct e as [name email]. simpl. intros [field ->] [url Hm].
  unfold row_pairs, input_row. simpl.
  rewrite trim_idempotent, (email_shape_trim _ (extracted_are_candidates _ _ Hm)).
  rewrite extractEmails_match_from.
  pose proof (email_shape_length _ (extracted_are_candidates _ _ Hm)) as Hlen.
  rewrite extractEmails_match_from in Hm.
  destruct (match_from_origin _ _ _ _ Hm) as (r & Hr).
  rewrite (match_from_whole email r); [reflexivity | | exact Hr].
  intros ->. simpl in Hlen. lia.
Qed.

(** X17: the rows of the artifact of a run, given to a run as an upload, deliver
    the entries they were written from, in their order: the header row
    gives no pair and each other row gives back its entry. *)
Theorem artifact_rows_give_back_entries resolveMx csv_write fs schedule :
  let entries := results (processCSV resolveMx csv_write fs schedule) in
  delivered (List.map Data (header :: List.map entry_row entries)) = entries.
Proof.
  intros entries.
  assert (Hall : Forall (λ e, (∃ field, e.1 = trim field)
                              ∧ ∃ url, e.2 ∈ extractEmails url) entries).
  { rewrite Forall_forall. intros e He. apply (delivered_origin schedule).
    pose proof (run_accounts resolveMx csv_write fs schedule) as H.
    cbv zeta in H.
    assert (Hin : e ∈ kept resolveMx (delivered schedule)).
    { rewrite <- H. apply elem_of_app. left. exact He. }
    unfold kept in Hin. apply list_elem_of_filter in Hin as [_ Hdel]. exact Hdel. }
  clearbody entries. unfold delivered.
  change (List.map Data (header :: List.map entry_row entries))
    with (Data header :: List.map Data (List.map entry_row entries)).
  rewrite bind_cons. change (row_pairs header) with (@nil (jsstring * jsstring)).
  simpl app. induction Hall as [|e entries [Hn Hm] _ IH]; [reflexivity|].
  change (List.map Data (List.map entry_row (e :: entries)))
    with (Data (entry_row e) :: List.map Data (List.map entry_row entries)).
  rewrite bind_cons, IH, (row_pairs_entry e Hn Hm). reflexivity.
Qed.
